(** * stdoc: bundle/page collection and cross-reference resolution

    A shallow embedding of the core of the stdoc documentation generator
    (util.py, collect.py, pageinfo.py and the cross-referencing part of
    __main__.py), followed by the properties stated about it.

    Python strings are Rocq [string]s; the handful of [str] methods and
    [os.path] (posixpath) functions the program calls are transliterated
    first.  Dictionaries that are iterated in insertion order (the page
    set, the fragments of a page) and the nested mappings of a
    configuration file are association lists; the labels of a page and the
    attributes of an element are [gmap]s, and the module-level set
    [unresolved_labels] is a [gset].  Exceptions are a sum type, console
    output an explicit list of diagnostics. *)

From Stdlib Require Import String Ascii ZArith List Bool Lia.
From stdpp Require Import base gmap sets list strings sorting pretty.

Local Open Scope Z_scope.
Set Warnings "-register-all".
Set Default Proof Using "Type".

(** ** Python [str] methods *)

Module Str.

Definition len (s : string) : Z := Z.of_nat (String.length s).

(** [s.startswith(p)] *)
Fixpoint startswith (s p : string) {struct p} : bool :=
  match p, s with
  | EmptyString, _ => true
  | String a p', String b s' => Ascii.eqb a b && startswith s' p'
  | String _ _, EmptyString => false
  end.

Fixpoint take (n : nat) (s : string) : string :=
  match n, s with
  | S n', String a s' => String a (take n' s')
  | _, _ => EmptyString
  end.

Fixpoint drop (n : nat) (s : string) : string :=
  match n, s with
  | S n', String _ s' => drop n' s'
  | _, _ => s
  end.

(** A slice bound [i] as Python clips it: negative bounds count from the
    end, and everything is clamped to [0 .. len s]. *)
Definition bound (s : string) (i : Z) : nat :=
  Z.to_nat (Z.min (len s) (if i <? 0 then Z.max 0 (len s + i) else i)).

(** [s[:i]] and [s[i:]] *)
Definition slice_to (s : string) (i : Z) : string := take (bound s i) s.
Definition slice_from (s : string) (i : Z) : string := drop (bound s i) s.

(** [s.endswith(p)] *)
Definition endswith (s p : string) : bool :=
  (len p <=? len s) && String.eqb (slice_from s (len s - len p)) p.

(** [s.rfind(c)] for a one-character needle: the highest index, or -1. *)
Fixpoint rfind (s : string) (c : ascii) : Z :=
  match s with
  | EmptyString => -1
  | String a s' =>
      let r := rfind s' c in
      if 0 <=? r then r + 1 else if Ascii.eqb a c then 0 else -1
  end.

(** [s == c * len(s)] *)
Fixpoint all_char (c : ascii) (s : string) : bool :=
  match s with
  | EmptyString => true
  | String a s' => Ascii.eqb a c && all_char c s'
  end.

(** [s.rstrip(c)] and [s.lstrip(c)] for a one-character set *)
Fixpoint rstrip (s : string) (c : ascii) : string :=
  match s with
  | EmptyString => EmptyString
  | String a s' =>
      match rstrip s' c with
      | EmptyString => if Ascii.eqb a c then EmptyString else String a EmptyString
      | r => String a r
      end
  end.

Fixpoint lstrip (s : string) (c : ascii) : string :=
  match s with
  | EmptyString => EmptyString
  | String a s' => if Ascii.eqb a c then lstrip s' c else s
  end.

(** [s.split(c)]: never the empty list, [''.split(c) == ['']]. *)
Fixpoint split (s : string) (c : ascii) : list string :=
  match s with
  | EmptyString => [EmptyString]
  | String a s' =>
      if Ascii.eqb a c then EmptyString :: split s' c
      else match split s' c with
           | [] => [String a EmptyString]
           | seg :: rest => String a seg :: rest
           end
  end.

(** [sep.join(l)] *)
Fixpoint join (sep : string) (l : list string) : string :=
  match l with
  | [] => EmptyString
  | [x] => x
  | x :: rest => x +:+ sep +:+ join sep rest
  end.

(** [sub in s] *)
Fixpoint contains (s sub : string) : bool :=
  startswith s sub ||
  match s with
  | EmptyString => false
  | String _ s' => contains s' sub
  end.

(** [s.replace(a, b)] for one-character [a] and [b] *)
Fixpoint replace (s : string) (a b : ascii) : string :=
  match s with
  | EmptyString => EmptyString
  | String x s' => String (if Ascii.eqb x a then b else x) (replace s' a b)
  end.

(** [s * n] *)
Fixpoint times (s : string) (n : nat) : string :=
  match n with
  | O => EmptyString
  | S n' => s +:+ times s n'
  end.

End Str.

(** ** Exceptions *)

Inductive exn : Type :=
  | Exception (msg : string)
  | KeyError (key : string)
  | TypeError
  | AssertionError
  | AttributeError (name : string).

Inductive res (A : Type) : Type :=
  | Ok (a : A)
  | Raise (e : exn).
Arguments Ok {A} a.
Arguments Raise {A} e.

Definition res_bind {A B} (m : res A) (k : A -> res B) : res B :=
  match m with
  | Ok a => k a
  | Raise e => Raise e
  end.

Global Instance res_ret : MRet res := fun _ a => Ok a.
Global Instance res_mbind : MBind res := fun _ _ k m => res_bind m k.

(** ** [os.path] for POSIX (CPython's posixpath) *)

Module os_path.

Definition sep : ascii := "/"%char.

(** One step of [join(a, *p)]: an absolute component restarts the path. *)
Definition join2 (path b : string) : string :=
  if Str.startswith b "/" then b
  else if String.eqb path "" || Str.endswith path "/" then path +:+ b
  else path +:+ "/" +:+ b.

Definition join (a : string) (p : list string) : string :=
  fold_left join2 p a.

(** [split(p)] returns [(head, tail)]; trailing slashes are stripped from
    the head unless it consists of slashes only. *)
Definition split (p : string) : string * string :=
  let i := Str.rfind p sep + 1 in
  let head := Str.slice_to p i in
  let tail := Str.slice_from p i in
  let head :=
    if negb (String.eqb head "") && negb (Str.all_char sep head)
    then Str.rstrip head sep else head in
  (head, tail).

Definition dirname (p : string) : string :=
  let i := Str.rfind p sep + 1 in
  let head := Str.slice_to p i in
  if negb (String.eqb head "") && negb (Str.all_char sep head)
  then Str.rstrip head sep else head.

(** [splitext(p)]: the extension starts at the last dot of the last
    component, leading dots of that component not counting. *)
Fixpoint splitext_scan (p : string) (dotIndex : Z) (n : nat)
    (filenameIndex : Z) : string * string :=
  match n with
  | O => (p, "")
  | S n' =>
      if filenameIndex <? dotIndex then
        if negb (String.eqb
                   (Str.take 1 (Str.slice_from p filenameIndex)) ".")
        then (Str.slice_to p dotIndex, Str.slice_from p dotIndex)
        else splitext_scan p dotIndex n' (filenameIndex + 1)
      else (p, "")
  end.

Definition splitext (p : string) : string * string :=
  let sepIndex := Str.rfind p sep in
  let dotIndex := Str.rfind p "."%char in
  if sepIndex <? dotIndex
  then splitext_scan p dotIndex (S (String.length p)) (sepIndex + 1)
  else (p, "").

(** The loop body of [normpath]; [initial_slashes] is 0, 1 or 2. *)
Definition normpath_step (initial_slashes : nat)
    (new_comps : list string) (comp : string) : list string :=
  if String.eqb comp "" || String.eqb comp "." then new_comps
  else if negb (String.eqb comp "..")
          || (Nat.eqb initial_slashes 0 && Nat.eqb (length new_comps) 0)
          || (negb (Nat.eqb (length new_comps) 0)
              && String.eqb (List.last new_comps "") "..")
  then new_comps ++ [comp]
  else if negb (Nat.eqb (length new_comps) 0) then removelast new_comps
  else new_comps.

Definition normpath (path : string) : string :=
  if String.eqb path "" then "."
  else
    let initial_slashes :=
      if Str.startswith path "/" then
        if Str.startswith path "//" && negb (Str.startswith path "///")
        then 2%nat else 1%nat
      else 0%nat in
    let comps := Str.split path sep in
    let comps := fold_left (normpath_step initial_slashes) comps [] in
    let path := Str.join "/" comps in
    let path := Str.times "/" initial_slashes +:+ path in
    if String.eqb path "" then "." else path.

(** Length of the longest common prefix of two component lists
    ([commonprefix] on lists). *)
Fixpoint commonprefix_len (l1 l2 : list string) : nat :=
  match l1, l2 with
  | x :: l1', y :: l2' =>
      if String.eqb x y then S (commonprefix_len l1' l2') else O
  | _, _ => O
  end.

(** [relpath(path, start)] where both arguments are absolute, so that
    [abspath] is [normpath] and the working directory is not consulted.
    (The program only calls it on ["/"] and an already validated base.) *)
Definition relpath (path start : string) : string :=
  let start_tail := Str.lstrip (normpath start) sep in
  let path_tail := Str.lstrip (normpath path) sep in
  let start_list :=
    if String.eqb start_tail "" then [] else Str.split start_tail sep in
  let path_list :=
    if String.eqb path_tail "" then [] else Str.split path_tail sep in
  let i := commonprefix_len start_list path_list in
  let rel_list :=
    repeat ".." (length start_list - i) ++ List.skipn i path_list in
  match rel_list with
  | [] => "."
  | a :: p => join a p
  end.

End os_path.

(** ** util.py: path abstractions *)

(** [AbstractPath.assertValid] *)
Definition assertValid (path : string) : res unit :=
  if negb (Str.startswith path "/") then
    Raise (Exception ("invalid path: " +:+ path))
  else if negb (String.eqb path "/") && Str.endswith path "/" then
    Raise (Exception ("invalid path: " +:+ path))
  else Ok tt.

(** The two checks of [assertValid] as a predicate. *)
Definition valid_path (path : string) : bool :=
  Str.startswith path "/"
  && negb (negb (String.eqb path "/") && Str.endswith path "/").

(** [Url] (and [InputPath], which differs in name only): the constructor is
    private to [mkUrl], which runs [AbstractPath.__init__]. *)
Record Url : Type := UnsafeUrl { _path : string }.

Definition mkUrl (path : string) : res Url :=
  _ ← assertValid path; Ok (UnsafeUrl path).

(** [AbstractPath._relpath]: the relative path from [self] to [target]. *)
Definition _relpath (self : Url) (target : string) : res string :=
  _ ← assertValid target;
  let base := os_path.dirname (_path self) in
  _ ← assertValid base;
  if String.eqb target "/" then Ok (os_path.relpath "/" base)
  else if String.eqb base "/" then Ok (Str.slice_from target 1)
  else
    let root := os_path.relpath "/" base in
    Ok (os_path.join root [Str.slice_from target 1]).

(** [Url.__mod__]: [target % base] *)
Definition Url_mod (self base : Url) : res string :=
  _relpath base (_path self).

(** [Url.__truediv__]: [self / subdir] *)
Definition Url_div (self : Url) (subdir : string) : res Url :=
  mkUrl (os_path.join (_path self) [subdir]).

(** [Url.addHtmlSuffix] *)
Definition addHtmlSuffix (self : Url) : res Url :=
  let path := _path self in
  mkUrl (path +:+ (if Str.endswith path "/" then "index.html" else ".html")).

(** ** Console output

    [err], [warn] and [print] write to the terminal; the embedding keeps
    the lines in order.  The colour escapes around the "error:" and
    "warning:" tags are not kept. *)

Inductive Diag : Type :=
  | DErr (msg : string)
  | DWarn (msg : string)
  | DPrint (msg : string).

Definition Console : Type := list Diag.

(** ** collect.py: bundles and their configuration *)

(** What [yaml.safe_load] produces (floats and dates left out; mapping keys
    are strings, as the annotation [dict[str, Any]] says).  A mapping is an
    association list: lookups take the first binding of a key. *)
Inductive yaml : Type :=
  | YNull
  | YBool (b : bool)
  | YInt (z : Z)
  | YStr (s : string)
  | YList (l : list yaml)
  | YDict (d : list (string * yaml)).

(** Python truthiness *)
Definition truthy (v : yaml) : bool :=
  match v with
  | YNull => false
  | YBool b => b
  | YInt z => negb (z =? 0)
  | YStr s => negb (String.eqb s "")
  | YList l => negb (Nat.eqb (length l) 0)
  | YDict d => negb (Nat.eqb (length d) 0)
  end.

(** [d.get(k)] on an insertion-ordered dictionary *)
Fixpoint dict_get {V : Type} (d : list (string * V)) (k : string) : option V :=
  match d with
  | [] => None
  | (k', v) :: d' => if String.eqb k' k then Some v else dict_get d' k
  end.

(** [d[k] = v]: an existing key keeps its position *)
Fixpoint dict_set {V : Type} (d : list (string * V)) (k : string) (v : V)
    : list (string * V) :=
  match d with
  | [] => [(k, v)]
  | (k', v') :: d' =>
      if String.eqb k' k then (k, v) :: d' else (k', v') :: dict_set d' k v
  end.

(** A bundle seen from a page: its directory, its configuration, its static
    folders and the chain of parents set by [registerSubdir].  (The
    dictionary of sub-bundles and the page cache point downwards and are
    only used by discovery.) *)
Inductive Bundle : Type :=
  mkBundle {
    _dir : string;
    _config : yaml;
    _statics : list string;
    _parent : option Bundle
  }.

(** [key in dic] for a string key and an arbitrary Python value:
    [Ok false] when absent, [Ok true] when [dic] is a mapping that has it,
    and [TypeError] where Python raises, either in the membership test
    (scalars are not iterable) or in the subscript that follows it (lists
    and strings are not indexed by strings). *)
Definition lookup_field (dic : yaml) (field : string) : res (option yaml) :=
  match dic with
  | YDict d => Ok (dict_get d field)
  | YList l =>
      if existsb (fun v => match v with
                           | YStr s => String.eqb s field
                           | _ => false
                           end) l
      then Raise TypeError else Ok None
  | YStr s => if Str.contains s field then Raise TypeError else Ok None
  | YNull | YBool _ | YInt _ => Raise TypeError
  end.

(** The inner function [lookup] of [Bundle.config]; the index [i] into
    [fields] is the suffix of the list still to be followed. *)
Fixpoint lookup (default : yaml) (dic : yaml) (fields : list string)
    : res (bool * yaml) :=
  match fields with
  | [] => Ok (true, dic)
  | field :: fields' =>
      sub ← lookup_field dic field;
      match sub with
      | None => Ok (false, default)
      | Some v => lookup default v fields'
      end
  end.

(** The inner function [lookupInBundle] of [Bundle.config] *)
Fixpoint lookupInBundle (default : yaml) (fields : list string) (b : Bundle)
    : res yaml :=
  match b with
  | mkBundle _ config _ parent =>
      '(found, value) ← lookup default config fields;
      match parent with
      | Some p => if negb found then lookupInBundle default fields p
                  else Ok value
      | None => Ok value
      end
  end.

Definition query_fields (query : string) : list string :=
  if negb (String.eqb query "") then Str.split query "."%char else [].

(** [Bundle.config(query, default)] *)
Definition Bundle_config (self : Bundle) (query : string) (default : yaml)
    : res yaml :=
  lookupInBundle default (query_fields query) self.


(** [Bundle.labelNamespace] *)
Definition labelNamespace (self : Bundle) : string :=
  if String.eqb (_dir self) "." then ""
  else ":" +:+ Str.replace (_dir self) "/"%char ":"%char.

(** [Bundle.localStaticFromPath] *)
Definition localStaticFromPath (self : Bundle) (path : string) : string :=
  let path := os_path.normpath path in
  fold_left
    (fun best static =>
       if Str.startswith path static && (Str.len best <? Str.len static)
       then static else best)
    (_statics self) "".

(** The values a [for lang in ...] loop over a configuration value yields,
    each required to be a string by the concatenation ["-" + lang]. *)
Definition iter_strings (v : yaml) : res (list string) :=
  match v with
  | YDict d => Ok (map fst d)
  | YList l =>
      mapM (M := res)
        (fun x => match x with YStr s => Ok s | _ => Raise TypeError end) l
  | YStr s => Ok (map (fun c => String c "") (list_ascii_of_string s))
  | YNull | YBool _ | YInt _ => Raise TypeError
  end.

(** [Bundle.checkLangSuffix] *)
Definition checkLangSuffix (self : Bundle) (path : string)
    : res (string * option string) :=
  let path := os_path.normpath (os_path.join (_dir self) [path]) in
  let '(dirname, filename) := os_path.split path in
  let basename := fst (os_path.splitext filename) in
  let fallback := Ok (os_path.join dirname [basename], None) in
  use_suffix ← Bundle_config self "inputs.lang_suffix" (YBool false);
  if truthy use_suffix then
    languages ← Bundle_config self "languages" (YDict []);
    langs ← iter_strings languages;
    match List.find (fun lang => Str.endswith basename ("-" +:+ lang)) langs with
    | Some lang =>
        Ok (os_path.join dirname
              [Str.slice_to basename (- Str.len lang - 1)], Some lang)
    | None => fallback
    end
  else fallback.

(** ** The content tree (xml.etree.ElementTree)

    An attribute normally holds a string.  [patch_static_urls] also stores
    the triple returned by [replace_url] in one, so a second shape is
    needed. *)

Inductive AttrVal : Type :=
  | AStr (s : string)
  | ATuple (t : option string * option string * option string).

Inductive Element : Type :=
  mkElement {
    tag : string;
    attrib : gmap string AttrVal;
    text : option string;
    children : list Element
  }.

(** ** pageinfo.py *)

Record PageInfo : Type :=
  mkPageInfo {
    bundle : Bundle;
    id : string;
    lang : option string;
    url_override : option Url;
    template : string;
    local_static : Url;
    title : string;
    label_namespace : string;
    labels : gmap string Url;
    tree : option Element;
    fragments : option (list (string * Element))
  }.

(** The dataclass constructor [PageInfo(bundle=, id=, lang=)] with the
    declared defaults. *)
Definition PageInfo_new (b : Bundle) (i : string) (l : option string)
    : PageInfo :=
  {| bundle := b; id := i; lang := l; url_override := None;
     template := "base.html"; local_static := UnsafeUrl "/";
     title := ""; label_namespace := ""; labels := ∅;
     tree := None; fragments := None |}.

Definition set_labels (p : PageInfo) (l : gmap string Url) : PageInfo :=
  {| bundle := bundle p; id := id p; lang := lang p;
     url_override := url_override p; template := template p;
     local_static := local_static p; title := title p;
     label_namespace := label_namespace p; labels := l;
     tree := tree p; fragments := fragments p |}.

Definition set_local_static (p : PageInfo) (u : Url) : PageInfo :=
  {| bundle := bundle p; id := id p; lang := lang p;
     url_override := url_override p; template := template p;
     local_static := u; title := title p;
     label_namespace := label_namespace p; labels := labels p;
     tree := tree p; fragments := fragments p |}.

Definition set_trees (p : PageInfo) (t : option Element)
    (f : option (list (string * Element))) : PageInfo :=
  {| bundle := bundle p; id := id p; lang := lang p;
     url_override := url_override p; template := template p;
     local_static := local_static p; title := title p;
     label_namespace := label_namespace p; labels := labels p;
     tree := t; fragments := f |}.

(** [PageInfo.config] *)
Definition PageInfo_config (self : PageInfo) (query : string)
    (default : yaml) : res yaml :=
  Bundle_config (bundle self) query default.

(** [force_suffix or self.config("urls.html_suffix")], evaluated lazily *)
Definition wants_suffix (self : PageInfo) (force_suffix : bool) : res bool :=
  if force_suffix then Ok true
  else v ← PageInfo_config self "urls.html_suffix" YNull; Ok (truthy v).

(** [PageInfo._url_components]; the concatenation ["/" + self.lang] needs
    a string. *)
Definition _url_components (self : PageInfo) (force_suffix : bool)
    : res (string * string * string) :=
  languages ← PageInfo_config self "languages" (YBool false);
  lang_str ← (if truthy languages then
                match lang self with
                | Some l => Ok ("/" +:+ l)
                | None => Raise TypeError
                end
              else Ok "");
  let path := "/" +:+ id self in
  suffixed ← wants_suffix self force_suffix;
  let suffix :=
    if (suffixed : bool) then
      if Str.endswith path "/" then "index.hml" else ".html"
    else "" in
  Ok (lang_str, path, suffix).

(** [PageInfo._default_url] *)
Definition _default_url (self : PageInfo) (lang suffix force_suffix : bool)
    : res Url :=
  '(lang_str, path, suffix_str) ← _url_components self force_suffix;
  let lang_str := if negb lang then "" else lang_str in
  let suffix_str := if negb suffix then "" else suffix_str in
  mkUrl (Str.times lang_str (if lang then 1 else 0) +:+ path
         +:+ Str.times suffix_str (if suffix then 1 else 0)).

(** [PageInfo._overridden_url] *)
Definition _overridden_url (self : PageInfo) (force_suffix : bool)
    : res Url :=
  match url_override self with
  | None => Raise AssertionError
  | Some url =>
      suffixed ← wants_suffix self force_suffix;
      if (suffixed : bool) then addHtmlSuffix url else Ok url
  end.

(** [PageInfo.url] *)
Definition url (self : PageInfo) : res Url :=
  match url_override self with
  | Some _ => _overridden_url self false
  | None => _default_url self true true false
  end.

(** [PageInfo.relpath] *)
Definition relpath (self : PageInfo) (target : Url) : res string :=
  base ← url self; Url_mod target base.

(** [PageInfo.localStaticUrl] *)
Definition localStaticUrl (self : PageInfo) : Url := local_static self.

(** [PageInfo.globalStaticRelpath] *)
Definition globalStaticRelpath (self : PageInfo) : res string :=
  base ← url self; Url_mod (UnsafeUrl "/static") base.

(** [PageInfo.add_label]: the page is updated in place and the diagnostic
    goes to the console. *)
Definition add_label (self : PageInfo) (name : string) (target : Url)
    (console : Console) : res (PageInfo * Console) :=
  if Str.startswith name "@" then Raise AssertionError
  else
    let name := label_namespace self +:+ ":" +:+ name in
    let console :=
      match labels self !! name with
      | Some _ =>
          console ++ [DErr ("multiple definitions of label " +:+ name
                            +:+ "; overriding to '" +:+ _path target +:+ "'")]
      | None => console
      end in
    Ok (set_labels self (<[name := target]> (labels self)), console).

(** ** __main__.py: cross-file referencing and patching *)

(** The mutable state the cross-referencing functions share: the page
    objects (the dictionary [pages], in discovery order), the module-level
    set [unresolved_labels], and the console. *)
Record World : Type :=
  mkWorld {
    pages : list (string * PageInfo);
    unresolved_labels : gset string;
    console : Console
  }.

Definition M (A : Type) : Type := World -> res (A * World).

Global Instance M_ret : MRet M := fun _ a w => Ok (a, w).
Global Instance M_mbind : MBind M := fun _ _ k m w =>
  match m w with
  | Ok (a, w') => k a w'
  | Raise e => Raise e
  end.

Definition raise {A : Type} (e : exn) : M A := fun _ => Raise e.

Definition lift {A : Type} (r : res A) : M A := fun w =>
  match r with
  | Ok a => Ok (a, w)
  | Raise e => Raise e
  end.

(** [err(msg)] *)
Definition err (msg : string) (w : World) : World :=
  {| pages := pages w; unresolved_labels := unresolved_labels w;
     console := console w ++ [DErr msg] |}.

(** The first step of [resolve_label]: relative to absolute label. *)
Definition qualify (sourcePage : PageInfo) (label : string) : string :=
  if negb (Str.startswith label ":")
  then label_namespace sourcePage +:+ ":" +:+ label
  else label.

(** [p.lang is not None and lang is not None and p.lang != lang] *)
Definition lang_mismatch (p_lang lang : option string) : bool :=
  match p_lang, lang with
  | Some a, Some b => negb (String.eqb a b)
  | _, _ => false
  end.

(** What one iteration of the loop over [p.labels.items()] appends to
    [found]. *)
Definition label_hit (label : string) (p_title : string)
    (item : string * Url) : list (Url * string) :=
  let '(l, target) := item in
  if String.eqb l label then [(target, p_title)] else [].

(** What one iteration of the loop over [pages.values()] appends to
    [found]. *)
Definition found_in_page (label : string) (lang' : option string)
    (p : PageInfo) : list (Url * string) :=
  if lang_mismatch (lang p) lang' then []
  else flat_map (label_hit label (title p)) (map_to_list (labels p)).

Definition find_label (label : string) (lang : option string)
    (ps : list (string * PageInfo)) : list (Url * string) :=
  flat_map (fun '(_, p) => found_in_page label lang p) ps.

(** [resolve_label(pages, sourcePage, label, lang)]; it raises nothing. *)
Definition resolve_label (sourcePage : PageInfo) (label : string)
    (lang : option string) (w : World) : (option Url * string) * World :=
  let label := qualify sourcePage label in
  let found := find_label label lang (pages w) in
  match found with
  | [] =>
      ((None, ""),
       {| pages := pages w;
          unresolved_labels := {[label]} ∪ unresolved_labels w;
          console := console w |})
  | first :: others =>
      let w :=
        match others with
        | [] => w
        | _ :: _ =>
            err ("multiple definitions of label @" +:+ label +:+ " found") w
        end in
      ((Some (fst first), snd first), w)
  end.

Definition Triple : Type := option string * option string * option string.

(** [replace_url(p, url, pages)].  The test for ["="] comes before the test
    for ["=:"]; the method [globalStaticUrl] the latter branch calls is not
    defined by [PageInfo]. *)
Definition replace_url (p : PageInfo) (url : option AttrVal) : M Triple :=
  match url with
  | None => mret (None, None, None)
  | Some (ATuple _) => raise (AttributeError "startswith")
  | Some (AStr url) =>
      if Str.startswith url "=" then
        target ← lift (Url_div (localStaticUrl p) (Str.slice_from url 1));
        new_url ← lift (relpath p target);
        mret (Some new_url, None, None)
      else if Str.startswith url "=:" then
        raise (AttributeError "globalStaticUrl")
      else if Str.startswith url "@" then
        fun w =>
          let '((target, title), w) :=
            resolve_label p (Str.slice_from url 1) (lang p) w in
          match target with
          | None => Ok ((None, None, None), w)
          | Some target =>
              new_url ← relpath p target;
              Ok ((Some new_url, Some url, Some title), w)
          end
      else mret (Some url, None, None)
  end.

(** The body of the loop over [a] elements: the new attributes and text. *)
Definition patch_a (p : PageInfo) (a : Element)
    : M (gmap string AttrVal * option string) :=
  '(new_url, old_text, new_text) ← replace_url p (attrib a !! "href");
  match new_url with
  | None =>
      match attrib a !! "href" with
      | None => raise (KeyError "href")
      | Some _ =>
          mret (<["class" := AStr "broken"]> (delete "href" (attrib a)),
                text a)
      end
  | Some new_url =>
      mret (<["href" := AStr new_url]> (attrib a),
            if decide (text a = old_text) then new_text else text a)
  end.

(** The body of the loop over [img] elements: the whole result of
    [replace_url] is stored. *)
Definition patch_img (p : PageInfo) (img : Element)
    : M (gmap string AttrVal * option string) :=
  t ← replace_url p (attrib img !! "src");
  mret (<["src" := ATuple t]> (attrib img), text img).

(** [for e in tree.iterfind(".//tg"): body(e)]: every proper descendant
    with tag [tg] in document order; [body] changes attributes and text of
    the element it is given, never the shape of the tree. *)
Fixpoint for_descendants (tg : string)
    (body : Element -> M (gmap string AttrVal * option string))
    (e : Element) : M Element :=
  match e with
  | mkElement etag eattrib etext kids =>
      let fix go (kids : list Element) : M (list Element) :=
        match kids with
        | [] => mret []
        | c :: rest =>
            '(att, txt) ← (if String.eqb (tag c) tg then body c
                           else mret (attrib c, text c));
            c' ← for_descendants tg body c;
            rest' ← go rest;
            mret (mkElement (tag c) att txt (children c') :: rest')
        end in
      kids' ← go kids;
      mret (mkElement etag eattrib etext kids')
  end.

(** [patch_static_urls(p, tree, pages)] *)
Definition patch_static_urls (p : PageInfo) (tree : Element) : M Element :=
  tree ← for_descendants "a" (patch_a p) tree;
  for_descendants "img" (patch_img p) tree.

Definition get_page (path : string) : M PageInfo := fun w =>
  match dict_get (pages w) path with
  | Some p => Ok (p, w)
  | None => Raise (KeyError path)
  end.

Definition put_page (path : string) (p : PageInfo) : M unit := fun w =>
  Ok (tt, {| pages := dict_set (pages w) path p;
             unresolved_labels := unresolved_labels w;
             console := console w |}).

(** [for name, frag in fragments.items(): patch_static_urls(p, frag, pages)] *)
Fixpoint patch_fragments (p : PageInfo) (frags : list (string * Element))
    : M (list (string * Element)) :=
  match frags with
  | [] => mret []
  | (name, frag) :: rest =>
      frag' ← patch_static_urls p frag;
      rest' ← patch_fragments p rest;
      mret ((name, frag') :: rest')
  end.

(** The body of the loop of [crossref_pages] for the page object stored
    under [path]. *)
Definition crossref_page (path : string) : M unit :=
  p ← get_page path;
  let inputStatic := localStaticFromPath (bundle p) path in
  let urlStatic :=
    os_path.join "/static" [_dir (bundle p); inputStatic] in
  static ← lift (mkUrl (os_path.normpath urlStatic));
  let p := set_local_static p static in
  _ ← put_page path p;
  tree' ← match tree p with
          | Some t => patch_static_urls p t
          | None => raise (AttributeError "iterfind")
          end;
  frags' ← match fragments p with
           | Some fs => patch_fragments p fs
           | None => raise (AttributeError "values")
           end;
  put_page path (set_trees p (Some tree') (Some frags')).

Fixpoint crossref_loop (paths : list string) : M unit :=
  match paths with
  | [] => mret tt
  | path :: rest => _ ← crossref_page path; crossref_loop rest
  end.

(** The end-of-run report of [crossref_pages] *)
Definition report_unresolved : M unit := fun w =>
  if negb (Nat.eqb (size (unresolved_labels w)) 0) then
    Ok (tt,
        {| pages := pages w; unresolved_labels := unresolved_labels w;
           console :=
             console w
             ++ DErr "there were unresolved labels"
                :: map (fun l => DPrint ("  @" +:+ l))
                     (merge_sort String.le (elements (unresolved_labels w)))
        |})
  else Ok (tt, w).

(** [crossref_pages(pages)] *)
Definition crossref_pages : M unit := fun w =>
  (_ ← crossref_loop (map fst (pages w)); report_unresolved) w.

(** ** collect.py: discovery and the metadata pass *)

(** [PageInfo.lang] is annotated [str]; the configured default language is
    accepted when it is a string or absent, and a value of another type is
    refused here (the program would keep it and fail where the language is
    first used as a string). *)
Definition lang_of_config (v : yaml) : res (option string) :=
  match v with
  | YStr s => Ok (Some s)
  | YNull => Ok None
  | _ => Raise TypeError
  end.

(** The body of the loop of [Bundle.loadPages] for one path returned by
    [_findPages] (the file system search itself is outside the model). *)
Definition loadPage (self : Bundle) (path : string)
    : res (string * PageInfo) :=
  '(i, suffix_lang) ← checkLangSuffix self path;
  l ← match suffix_lang with
      | Some l => Ok (Some l)
      | None => v ← Bundle_config self "language" (YStr "en");
                lang_of_config v
      end;
  Ok (os_path.normpath (os_path.join (_dir self) [path]),
      PageInfo_new self i l).

(** [Bundle.loadPages], given the result of [_findPages]; the two progress
    lines it logs are not kept. *)
Fixpoint loadPages_from (self : Bundle) (found : list string)
    (_pages : list (string * PageInfo)) : res (list (string * PageInfo)) :=
  match found with
  | [] => Ok _pages
  | path :: rest =>
      '(key, p) ← loadPage self path;
      loadPages_from self rest (dict_set _pages key p)
  end.

Definition loadPages (self : Bundle) (found : list string)
    : res (list (string * PageInfo)) :=
  loadPages_from self found [].

(** What the markup engine returns for one source file: the tree, the
    named fragments and the metadata block [md.Meta]. *)
Record Parsed : Type :=
  mkParsed {
    parsed_tree : Element;
    parsed_fragments : list (string * Element);
    Meta : list (string * list string)
  }.

(** The page fields the metadata pass assigns before labels are added. *)
Definition set_parsed (p : PageInfo) (ns : string) (t : Element)
    (f : list (string * Element)) : PageInfo :=
  {| bundle := bundle p; id := id p; lang := lang p;
     url_override := url_override p; template := template p;
     local_static := local_static p; title := title p;
     label_namespace := ns; labels := labels p;
     tree := Some t; fragments := Some f |}.

Definition set_title (p : PageInfo) (t : string) : PageInfo :=
  {| bundle := bundle p; id := id p; lang := lang p;
     url_override := url_override p; template := template p;
     local_static := local_static p; title := t;
     label_namespace := label_namespace p; labels := labels p;
     tree := tree p; fragments := fragments p |}.

Definition set_url_override (p : PageInfo) (u : Url) : PageInfo :=
  {| bundle := bundle p; id := id p; lang := lang p;
     url_override := Some u; template := template p;
     local_static := local_static p; title := title p;
     label_namespace := label_namespace p; labels := labels p;
     tree := tree p; fragments := fragments p |}.

Definition set_lang (p : PageInfo) (l : string) : PageInfo :=
  {| bundle := bundle p; id := id p; lang := Some l;
     url_override := url_override p; template := template p;
     local_static := local_static p; title := title p;
     label_namespace := label_namespace p; labels := labels p;
     tree := tree p; fragments := fragments p |}.

Definition set_template (p : PageInfo) (t : string) : PageInfo :=
  {| bundle := bundle p; id := id p; lang := lang p;
     url_override := url_override p; template := t;
     local_static := local_static p; title := title p;
     label_namespace := label_namespace p; labels := labels p;
     tree := tree p; fragments := fragments p |}.

(** The state of the metadata loop of [initialParse]: the page, the list
    [fileLabels] and the console. *)
Definition MetaState : Type := PageInfo * list string * Console.

Fixpoint fold_meta (f : MetaState -> string * list string -> res MetaState)
    (st : MetaState) (items : list (string * list string)) : res MetaState :=
  match items with
  | [] => Ok st
  | kv :: rest => st' ← f st kv; fold_meta f st' rest
  end.

(** One iteration of [for key, value in md.Meta.items()]. *)
Definition apply_meta (path : string) (st : MetaState)
    (kv : string * list string) : res MetaState :=
  let '(p, fileLabels, out) := st in
  let '(key, value) := kv in
  match value with
  | [v] =>
      if String.eqb key "title" then Ok (set_title p v, fileLabels, out)
      else if String.eqb key "url" then
        let '(u, out) :=
          if Str.endswith v ".html"
          then (Str.slice_to v (-5),
                out ++ [DPrint (path +:+ ": URL override " +:+ v
                                +:+ " should omit '.html' suffix")])
          else (v, out) in
        let u := if negb (Str.startswith u "/") then "/" +:+ u else u in
        u' ← mkUrl u;
        Ok (set_url_override p u', fileLabels, out)
      else if String.eqb key "lang" then Ok (set_lang p v, fileLabels, out)
      else if String.eqb key "template" then
        Ok (set_template p v, fileLabels, out)
      else if String.eqb key "label" then
        if forallb (fun v => Str.startswith v "@") value
        then Ok (p, fileLabels ++ value, out)
        else Raise AssertionError
      else
        Ok (p, fileLabels,
            out ++ [DWarn (path +:+ ": unknown metadata '" +:+ key
                           +:+ "' of length "
                           +:+ pretty (length value))])
  | _ =>
      if String.eqb key "label" then
        if forallb (fun v => Str.startswith v "@") value
        then Ok (p, fileLabels ++ value, out)
        else Raise AssertionError
      else
        Ok (p, fileLabels,
            out ++ [DWarn (path +:+ ": unknown metadata '" +:+ key
                           +:+ "' of length "
                           +:+ pretty (length value))])
  end.

(** [for l in fileLabels: p.add_label(l[1:], p.url())] *)
Fixpoint add_file_labels (p : PageInfo) (fileLabels : list string)
    (out : Console) : res (PageInfo * Console) :=
  match fileLabels with
  | [] => Ok (p, out)
  | l :: rest =>
      target ← url p;
      '(p, out) ← add_label p (Str.slice_from l 1) target out;
      add_file_labels p rest out
  end.

(** The body of the loop of [initialParse] for one page, given what the
    markup engine made of its source. *)
Definition initialParse_page (path : string) (parsed : Parsed)
    (p : PageInfo) (out : Console) : res (PageInfo * Console) :=
  let p := set_parsed p (labelNamespace (bundle p))
             (parsed_tree parsed) (parsed_fragments parsed) in
  '(p, fileLabels, out) ←
     fold_meta (apply_meta path) (p, [], out) (Meta parsed);
  add_file_labels p fileLabels out.

(** [initialParse(mainBundle, md)] over the page set, the markup engine
    being the function [parse] from source paths to parse results. *)
Fixpoint initialParse_loop (parse : string -> Parsed)
    (paths : list string) : M unit :=
  match paths with
  | [] => mret tt
  | path :: rest =>
      p ← get_page path;
      r ← (fun w => match initialParse_page path (parse path) p (console w) with
                    | Ok (p', out) =>
                        Ok (p', {| pages := pages w;
                                   unresolved_labels := unresolved_labels w;
                                   console := out |})
                    | Raise e => Raise e
                    end);
      _ ← put_page path r;
      initialParse_loop parse rest
  end.

Definition initialParse (parse : string -> Parsed) : M unit := fun w =>
  initialParse_loop parse (map fst (pages w)) w.

(** ** Path laws: the vocabulary of the statements *)

(** The character [c] does not occur in [s] ([c not in s]). *)
Fixpoint lacks (s : string) (c : ascii) : bool :=
  match s with
  | EmptyString => true
  | String a s' => negb (Ascii.eqb a c) && lacks s' c
  end.

(** The last character of a string ([s[-1:]]), if any. *)
Fixpoint last_char (s : string) : option ascii :=
  match s with
  | EmptyString => None
  | String a s' =>
      match last_char s' with
      | None => Some a
      | Some b => Some b
      end
  end.

(** The components of an absolute path: what stands between its slashes,
    none for the root. *)
Definition components (p : string) : list string :=
  if String.eqb p "/" then [] else List.tl (Str.split p "/"%char).

Definition plain_segment (seg : string) : bool :=
  negb (String.eqb seg "" || String.eqb seg "." || String.eqb seg "..").

(** An absolute path in normal form: it starts with a slash and has no
    empty, [.] or [..] component (so no doubled or trailing slash). *)
Definition normalised (p : string) : bool :=
  Str.startswith p "/" && forallb plain_segment (components p).

(** The path with the given components. *)
Definition path_of (segs : list string) : string := "/" +:+ Str.join "/" segs.

(** ["a/b/c/"]: components each followed by a slash. *)
Definition dir_of (segs : list string) : string :=
  fold_right (fun seg acc => seg +:+ "/" +:+ acc) "" segs.

(** *** Resolving a relative reference as a browser does (RFC 3986, 5.2)

    Only paths are involved: the base is an absolute path, the reference
    a path, absolute or relative. *)

Definition dots_step (out : list string) (seg : string) : list string :=
  if String.eqb seg "." then out
  else if String.eqb seg ".." then removelast out
  else out ++ [seg].

(** [remove_dot_segments] (5.2.4) on a path that starts with a slash: a
    [.] is dropped, a [..] drops the segment before it, and a path that
    ends in one of them names a directory, so keeps a final slash. *)
Definition remove_dot_segments (path : string) : string :=
  let segs := List.tl (Str.split path "/"%char) in
  let out := fold_left dots_step segs [] in
  let final := List.last segs "" in
  let as_dir :=
    (String.eqb final "." || String.eqb final "..")
    && negb (Nat.eqb (length out) 0) in
  "/" +:+ Str.join "/" out +:+ (if as_dir then "/" else "").

(** Transform references (5.2.2) with "merge" (5.2.3): a relative path
    replaces everything after the last slash of the base. *)
Definition url_resolve (base ref : string) : string :=
  if Str.startswith ref "/" then remove_dot_segments ref
  else if String.eqb ref "" then base
  else
    remove_dot_segments
      (Str.slice_to base (Str.rfind base "/"%char + 1) +:+ ref).

(** The relative-path law as the specification words it, for a target [A]
    and a base [B]: a relative path is produced, it resolves against [B]
    to [A], and it is some number of ["../"] followed by [A] without its
    leading slash. *)
Definition relpath_law (A B : string) : Prop :=
  exists r,
    _relpath (UnsafeUrl B) A = Ok r
    /\ url_resolve B r = A
    /\ exists n, r = Str.times "../" n +:+ Str.slice_from A 1.

(** The string [_relpath] produces between normalised paths: as many
    [..] as the base's directory has components, then the target's
    components; a lone [.] when there is neither. *)
Definition canonical_relpath (A B : string) : string :=
  match (repeat ".." (length (components B) - 1)%nat ++ components A)%list with
  | [] => "."
  | segs => Str.join "/" segs
  end.

(** A component as [normalised] paths have them: plain, and (being what
    stands between two slashes) free of slashes. *)
Definition seg_ok (seg : string) : Prop :=
  plain_segment seg = true /\ lacks seg "/"%char = true.

(** Everything before the final slash of the path whose directory has the
    components [init]. *)
Definition parent_of (init : list string) : string :=
  match init with
  | [] => ""
  | _ :: _ => path_of init
  end.

(** ** The default URL as the specification words it

    A language prefix only if the page's bundle declares several languages,
    then the id, then ".html" exactly when [urls.html_suffix] is on. *)




(** A page of a bundle that declares one language. *)
Module SingleLanguage.

Definition site : Bundle :=
  mkBundle "."
    (YDict [("languages", YDict [("en", YStr "English")]);
            ("urls", YDict [("html_suffix", YBool true)])])
    [] None.

Definition index : PageInfo := PageInfo_new site "index" (Some "en").

End SingleLanguage.

(** ** An end-to-end run

    A root bundle in the working directory with two languages and HTML
    suffixes, holding [index.md], which declares the label [@home], and
    [about.md], whose text refers to it.  The title of the home page and
    the visible text of the link are left open. *)

Module Scenario.

Definition root : Bundle :=
  mkBundle "."
    (YDict [("languages",
             YDict [("en", YStr "English"); ("fr", YStr "Francais")]);
            ("urls", YDict [("html_suffix", YBool true)])])
    [] None.

(** What [_findPages] returns: the matches, sorted. *)
Definition found : list string := ["about.md"; "index.md"].

Definition element (tg : string) (attrs : list (string * AttrVal))
    (txt : option string) (kids : list Element) : Element :=
  mkElement tg (list_to_map attrs) txt kids.

Section Run.

Variable home_title : string.
Variable link_text : option string.

Definition index_parsed : Parsed :=
  mkParsed
    (element "div" [] None [element "h1" [] (Some home_title) []])
    []
    [("title", [home_title]); ("label", ["@home"])].

Definition about_tree (href : AttrVal) (txt : option string) : Element :=
  element "div" [] None
    [element "p" [] (Some "Back to ")
       [element "a" [("href", href)] txt []]].

Definition about_parsed : Parsed :=
  mkParsed (about_tree (AStr "@home") link_text) []
           [("title", ["About"])].

Definition parse (path : string) : Parsed :=
  if String.eqb path "index.md" then index_parsed else about_parsed.

(** Discovery, the metadata pass and the patching pass, as [main] runs
    them. *)
Definition run : res (unit * World) :=
  discovered ← loadPages root found;
  (_ ← initialParse parse; crossref_pages) (mkWorld discovered ∅ []).

End Run.

End Scenario.

(** ** Static references: a page with a local static folder *)

Module StaticRefs.

Definition docs : Bundle :=
  mkBundle "." (YDict [("urls", YDict [("html_suffix", YBool true)])])
           ["guide"] None.

(** The page [guide/intro.md] once [crossref_pages] has set its
    [local_static]. *)
Definition intro : PageInfo :=
  set_local_static (PageInfo_new docs "guide/intro" (Some "en"))
                   (UnsafeUrl "/static/guide").

Definition world : World := mkWorld [("guide/intro.md", intro)] ∅ [].

Definition figure (src : AttrVal) : Element :=
  mkElement "div" ∅ None
    [mkElement "img" {[ "src" := src ]} None []].

End StaticRefs.

(** What the rule for the prefix ["=:"] is meant to compute: the remainder
    joined onto the global static root, relative to the page's URL (the
    [global_static] helper of [generate_html] does this). *)
Definition global_static_rule (p : PageInfo) (remainder : string)
    : res string :=
  target ← Url_div (UnsafeUrl "/static") remainder; relpath p target.
(** ** The claims' own readings, where they differ from the code *)



(** ** Small inputs the statements are tried on *)



(** A page set of one page, which defines one label. *)
Definition lonely_page : PageInfo :=
  set_labels (PageInfo_new (mkBundle "." (YDict []) [] None) "a" (Some "en"))
             {[ ":here" := UnsafeUrl "/a" ]}.

Definition lonely_world : World :=
  mkWorld [("a.md", lonely_page)] ∅ [].

(** A home page, before and after it registers the label "home", and a
    page of the same bundle that refers to it. *)
Module LabelDemo.

Definition site : Bundle := mkBundle "." (YDict []) [] None.

Definition home : PageInfo := PageInfo_new site "index" (Some "en").

Definition home_labelled : PageInfo :=
  set_labels home (<[":home" := UnsafeUrl "/index"]> ∅).

Definition about : PageInfo := PageInfo_new site "about" (Some "en").

Definition world : World :=
  mkWorld [("about.md", about); ("index.md", home_labelled)] ∅ [].

End LabelDemo.

(** ** More of util.py: terminal strings *)

(** The escape character ["\x1b"]. *)
Definition ESC : ascii := "027"%char.

(** The table [styles] of [style]: style letter to SGR code. *)
Definition styles : list (ascii * string) :=
  [("B"%char, "1"); ("D"%char, "2"); ("I"%char, "3"); ("U"%char, "4");
   ("k"%char, "30"); ("r"%char, "31"); ("g"%char, "32"); ("y"%char, "33");
   ("b"%char, "34"); ("m"%char, "35"); ("c"%char, "36")].

Fixpoint styles_get (table : list (ascii * string)) (c : ascii)
    : option string :=
  match table with
  | [] => None
  | (k, v) :: rest => if Ascii.eqb k c then Some v else styles_get rest c
  end.

(** The loop of [style] that builds [before]. *)
Fixpoint style_before (style_spec : string) (before : string) : string :=
  match style_spec with
  | EmptyString => before
  | String c rest =>
      style_before rest
        (match styles_get styles c with
         | Some code => before +:+ String ESC "[" +:+ code +:+ "m"
         | None => before
         end)
  end.

(** [style(s, style_spec)] *)
Definition style (s style_spec : string) : string :=
  if String.eqb style_spec "" then s
  else style_before style_spec "" +:+ s +:+ String ESC "[0m".

(** One iteration of the loop of [termlen] on the state [(l, in_escape)]. *)
Definition termlen_step (st : Z * bool) (c : ascii) : Z * bool :=
  let '(l, in_escape) := st in
  let in_escape := if Ascii.eqb c ESC then true else in_escape in
  let l := l + (if negb in_escape then 1 else 0) in
  let in_escape :=
    if in_escape && Ascii.eqb c "m" then false else in_escape in
  (l, in_escape).

Fixpoint termlen_loop (s : string) (st : Z * bool) : Z * bool :=
  match s with
  | EmptyString => st
  | String c s' => termlen_loop s' (termlen_step st c)
  end.

(** [termlen(s)] *)
Definition termlen (s : string) : Z := fst (termlen_loop s (0, false)).

(** [s.ljust(width)] *)
Definition ljust (s : string) (width : Z) : string :=
  s +:+ Str.times " " (Z.to_nat (width - Str.len s)).

(** [termljust(s, n)] *)
Definition termljust (s : string) (n : Z) : string :=
  ljust s (n + Str.len s - termlen s).

(** ** More of pageinfo.py *)

(** [PageInfo.output_path]; the configured output folder has to be a
    string for [os.path.join]. *)
Definition output_path (self : PageInfo) : res string :=
  u ← match url_override self with
      | Some _ => _overridden_url self true
      | None => _default_url self true true true
      end;
  let s := _path u in
  if negb (Str.startswith s "/") then Raise AssertionError
  else if negb (Str.endswith s ".html") then Raise AssertionError
  else
    folder ← PageInfo_config self "outputs.folder" (YStr "_www");
    match folder with
    | YStr f => Ok (os_path.join f [Str.slice_from s 1])
    | _ => Raise TypeError
    end.

(** [PageInfo.localStaticRelpath] *)
Definition localStaticRelpath (self : PageInfo) : res string :=
  base ← url self; Url_mod (localStaticUrl self) base.

(** ** More of __main__.py *)

(** The function [ref] that [makeRefFunction(pages, p)] returns. *)
Definition ref (p : PageInfo) (label : string) : M (option string) :=
  if negb (Str.startswith label "@") then raise AssertionError
  else fun w =>
    let '((target, _), w) :=
      resolve_label p (Str.slice_from label 1) (lang p) w in
    match target with
    | Some t => rp ← relpath p t; Ok (Some rp, w)
    | None => Ok (None, w)
    end.

(** ** Vocabulary of the further properties *)

(** The tags of a tree, in place: what patching must not change. *)
Fixpoint shape (e : Element) : Element :=
  match e with
  | mkElement tg _ _ kids => mkElement tg ∅ None (map shape kids)
  end.

(** The fields of a page the patching pass has no business with. *)
Definition page_core (p : PageInfo)
    : Bundle * string * option string * option Url * string * string
      * string * gmap string Url :=
  (bundle p, id p, lang p, url_override p, template p, title p,
   label_namespace p, labels p).

(** Whether the escape sequences of a string are all closed. *)
Definition escapes_closed (s : string) : bool :=
  negb (snd (termlen_loop s (0, false))).

(** Induction on content trees, with the hypothesis for every child. *)
Fixpoint Element_tree_ind (P : Element -> Prop)
    (H : forall tg att txt kids,
           Forall P kids -> P (mkElement tg att txt kids))
    (e : Element) : P e :=
  match e with
  | mkElement tg att txt kids =>
      H tg att txt kids
        ((fix all (l : list Element) : Forall P l :=
            match l with
            | [] => @List.Forall_nil _ P
            | c :: rest =>
                @List.Forall_cons _ P c rest (Element_tree_ind P H c) (all rest)
            end) kids)
  end.

(** A tree with the attributes and the text of every proper descendant
    whose tag is selected by [hit] wiped: what is left is what a loop over
    those descendants cannot have changed. *)
Fixpoint blank_below (hit : string -> bool) (e : Element) : Element :=
  match e with
  | mkElement tg att txt kids =>
      mkElement tg att txt
        (map (fun c =>
                let c' := blank_below hit c in
                if hit (tag c) then mkElement (tag c') ∅ None (children c')
                else c')
             kids)
  end.

Definition is_tag (tg : string) (t : string) : bool := String.eqb t tg.

Definition is_a_or_img (t : string) : bool :=
  String.eqb t "a" || String.eqb t "img".

(** A computation that, when it returns, returns with the page set it was
    started with. *)
Definition keeps_pages {A : Type} (m : M A) : Prop :=
  forall w a w', m w = Ok (a, w') -> pages w' = pages w.

(** The page set as the patching pass must leave it: keys in order, and
    for each page the fields of [page_core]. *)
Definition page_cores (ps : list (string * PageInfo)) :=
  map (fun kp : string * PageInfo => (fst kp, page_core (snd kp))) ps.

(** The page guide/intro after the metadata pass, with a tree that holds
    a link to a missing label and an external link, in a page set. *)
Module Parsed.

Definition tree : Element :=
  mkElement "div" ∅ None
    [mkElement "p" ∅ (Some "See ")
       [mkElement "a" {[ "href" := AStr "@missing" ]} (Some "@missing") [];
        mkElement "a" {[ "href" := AStr "https://example.org/" ]}
                  (Some "there") []]].

Definition intro : PageInfo :=
  set_parsed (PageInfo_new StaticRefs.docs "guide/intro" (Some "en"))
             "" tree [].

Definition world : World := mkWorld [("guide/intro.md", intro)] ∅ [].

End Parsed.

(** Two pages that define the same label, and a French page that is alone
    in defining its label. *)
Module LabelClash.

Definition first : PageInfo :=
  set_title LabelDemo.home_labelled "First".

Definition second : PageInfo :=
  set_title
    (set_labels (PageInfo_new LabelDemo.site "other" (Some "en"))
                {[ ":home" := UnsafeUrl "/other" ]})
    "Second".

Definition world : World :=
  mkWorld [("about.md", LabelDemo.about); ("index.md", first);
           ("other.md", second)] ∅ [].

Definition accueil : PageInfo :=
  set_labels (PageInfo_new LabelDemo.site "accueil" (Some "fr"))
             {[ ":accueil" := UnsafeUrl "/accueil" ]}.

Definition french_world : World :=
  mkWorld [("about.md", LabelDemo.about); ("accueil-fr.md", accueil)] ∅ [].

End LabelClash.


(** * Properties *)

(** ** The resolution function on the examples of RFC 3986, 5.4 *)

Example rfc3986_examples :
  map (url_resolve "/b/c/d;p")
      ["g"; "./g"; "g/"; "/g"; ""; "."; "./"; ".."; "../"; "../g";
       "../.."; "../../"; "../../g"; "../../../g"; "/./g"; "/../g";
       "g."; "./../g"; "./g/."; "g/./h"; "g/../h"]
  = ["/b/c/g"; "/b/c/g"; "/b/c/g/"; "/g"; "/b/c/d;p"; "/b/c/"; "/b/c/";
     "/b/"; "/b/"; "/b/g"; "/"; "/"; "/g"; "/g"; "/g"; "/g";
     "/b/c/g."; "/b/g"; "/b/c/g/"; "/b/c/g/h"; "/b/c/h"].
Proof. vm_compute. reflexivity. Qed.

Example relpath_examples :
  map (fun '(b, a) => _relpath (UnsafeUrl b) a)
      [("/en/about.html", "/en/index.html"); ("/a/b/c", "/");
       ("/index", "/"); ("/", "/x/y"); ("//a", "/x")]
  = [Ok "../en/index.html"; Ok "../.."; Ok "."; Ok "x/y";
     Raise (Exception "invalid path: //")].
Proof. vm_compute. reflexivity. Qed.

Example canonical_relpath_examples :
  map (fun '(b, a) => canonical_relpath a b)
      [("/en/about.html", "/en/index.html"); ("/a/b/c", "/");
       ("/index", "/"); ("/", "/x/y")]
  = ["../en/index.html"; "../.."; "."; "x/y"].
Proof. vm_compute. reflexivity. Qed.

Example posixpath_examples :
  map os_path.normpath ["/static/./"; "/a//b/../c"; "//x"; "///x"; "a/../.."]
  = ["/static"; "/a/c"; "//x"; "/x"; ".."]
  /\ map os_path.splitext ["index.md"; "a.b/c"; ".md"; "x/..y.z"]
     = [("index", ".md"); ("a.b/c", ""); (".md", ""); ("x/..y", ".z")]
  /\ map os_path.dirname ["/a/b"; "/a"; "/"; "//a"; "/a//b"; "a"]
     = ["/a"; "/"; "/"; "//"; "/a"; ""].
Proof. vm_compute. repeat split. Qed.

(** ** Facts about the string functions *)

Section StrFacts.

Implicit Types (s t u : string) (a c : ascii).

Lemma str_app_cons a s t : String a s +:+ t = String a (s +:+ t).
Proof. reflexivity. Qed.

Lemma str_app_nil_l t : "" +:+ t = t.
Proof. reflexivity. Qed.

Lemma str_app_nil_r s : s +:+ "" = s.
Proof. induction s as [|a s IH]; [done|]. by rewrite str_app_cons, IH. Qed.

Lemma str_app_assoc s t u : (s +:+ t) +:+ u = s +:+ (t +:+ u).
Proof. induction s as [|a s IH]; [done|]. by rewrite !str_app_cons, IH. Qed.

Lemma str_length_app s t :
  String.length (s +:+ t) = (String.length s + String.length t)%nat.
Proof. induction s as [|a s IH]; [done|]. rewrite str_app_cons. simpl. lia. Qed.

Lemma len_cons a s : Str.len (String a s) = Str.len s + 1.
Proof. unfold Str.len. simpl String.length. lia. Qed.

Lemma len_nonneg s : 0 <= Str.len s.
Proof. unfold Str.len. lia. Qed.

Lemma len_app s t : Str.len (s +:+ t) = Str.len s + Str.len t.
Proof. unfold Str.len. rewrite str_length_app. lia. Qed.

Lemma bound_inside s i : 0 <= i <= Str.len s -> Str.bound s i = Z.to_nat i.
Proof.
  intros H. unfold Str.bound.
  destruct (Z.ltb_spec i 0); [lia|]. f_equal. lia.
Qed.

Lemma str_drop_app s t : Str.drop (String.length s) (s +:+ t) = t.
Proof. induction s as [|a s IH]; [by destruct t|]. by rewrite str_app_cons. Qed.

Lemma str_take_app s t : Str.take (String.length s) (s +:+ t) = s.
Proof.
  induction s as [|a s IH]; [by destruct t|].
  rewrite str_app_cons. simpl. by rewrite IH.
Qed.

Lemma slice_from_app s t : Str.slice_from (s +:+ t) (Str.len s) = t.
Proof.
  unfold Str.slice_from. rewrite bound_inside.
  - unfold Str.len. rewrite Nat2Z.id. apply str_drop_app.
  - rewrite len_app. pose proof (len_nonneg s). pose proof (len_nonneg t). lia.
Qed.

Lemma slice_to_app s t : Str.slice_to (s +:+ t) (Str.len s) = s.
Proof.
  unfold Str.slice_to. rewrite bound_inside.
  - unfold Str.len. rewrite Nat2Z.id. apply str_take_app.
  - rewrite len_app. pose proof (len_nonneg s). pose proof (len_nonneg t). lia.
Qed.

Lemma slice_from_1 a s : Str.slice_from (String a s) 1 = s.
Proof. apply (slice_from_app (String a "") s). Qed.

(** *** The last character *)

Lemma last_char_app s t :
  last_char (s +:+ t)
  = match last_char t with Some b => Some b | None => last_char s end.
Proof.
  induction s as [|a s IH].
  - rewrite str_app_nil_l. simpl. by destruct (last_char t).
  - rewrite str_app_cons. simpl. rewrite IH.
    destruct (last_char t); [done|]. by destruct (last_char s).
Qed.

Lemma last_char_None s : last_char s = None -> s = "".
Proof. destruct s as [|a s]; [done|]. simpl. by destruct (last_char s). Qed.

Lemma drop_to_last a s :
  Str.drop (String.length s) (String a s)
  = String (default a (last_char s)) "".
Proof.
  revert a. induction s as [|b s IH]; intros a; [done|].
  simpl. rewrite IH. by destruct (last_char s).
Qed.

Lemma endswith_char s c :
  Str.endswith s (String c "")
  = match last_char s with Some b => Ascii.eqb b c | None => false end.
Proof.
  unfold Str.endswith. destruct s as [|a s]; [done|].
  change (Str.len (String c "")) with 1.
  rewrite len_cons. pose proof (len_nonneg s).
  destruct (Z.leb_spec 1 (Str.len s + 1)); [|lia]. simpl andb.
  unfold Str.slice_from. rewrite bound_inside by (rewrite len_cons; lia).
  replace (Z.to_nat (Str.len s + 1 - 1)) with (String.length s)
    by (unfold Str.len; lia).
  rewrite drop_to_last. simpl.
  destruct (last_char s) as [b|]; simpl.
  - by destruct (Ascii.eqb b c).
  - by destruct (Ascii.eqb a c).
Qed.

Lemma rstrip_clean s c b :
  last_char s = Some b -> b <> c -> Str.rstrip s c = s.
Proof.
  induction s as [|a s IH]; [done|]. simpl. intros Hl Hne.
  destruct (last_char s) as [b'|] eqn:Hs.
  - rewrite IH by congruence. destruct s; [done|done].
  - apply last_char_None in Hs. subst s. simpl.
    injection Hl as ->. by apply Ascii.eqb_neq in Hne as ->.
Qed.

Lemma rstrip_app_char s c : Str.rstrip (s +:+ String c "") c = Str.rstrip s c.
Proof.
  induction s as [|a s IH].
  - rewrite str_app_nil_l. simpl. by rewrite Ascii.eqb_refl.
  - rewrite str_app_cons. simpl. by rewrite IH.
Qed.

(** *** Searching and splitting *)

Lemma rfind_lacks s c : lacks s c = true -> Str.rfind s c = -1.
Proof.
  induction s as [|a s IH]; [done|]. simpl.
  intros [Ha Hs]%andb_true_iff. rewrite IH by done. simpl.
  by apply negb_true_iff in Ha as ->.
Qed.

Lemma rfind_app_last s c t :
  lacks t c = true -> Str.rfind (s +:+ String c t) c = Str.len s.
Proof.
  intros Ht. induction s as [|a s IH].
  - rewrite str_app_nil_l. simpl. rewrite rfind_lacks by done. simpl.
    by rewrite Ascii.eqb_refl.
  - rewrite str_app_cons. simpl. rewrite IH, len_cons.
    pose proof (len_nonneg s). by destruct (Z.leb_spec 0 (Str.len s)); [|lia].
Qed.

Lemma split_nonempty s c : Str.split s c <> [].
Proof.
  destruct s as [|a s]; [done|]. simpl.
  destruct (Ascii.eqb a c); [done|]. by destruct (Str.split s c).
Qed.

Lemma split_lacks s c : lacks s c = true -> Str.split s c = [s].
Proof.
  induction s as [|a s IH]; [done|]. simpl.
  intros [Ha Hs]%andb_true_iff. apply negb_true_iff in Ha as ->.
  by rewrite IH.
Qed.

Lemma split_app_sep s c t :
  lacks s c = true ->
  Str.split (s +:+ String c t) c = s :: Str.split t c.
Proof.
  induction s as [|a s IH]; intros Hs.
  - rewrite str_app_nil_l. simpl. by rewrite Ascii.eqb_refl.
  - rewrite str_app_cons. simpl in *.
    apply andb_true_iff in Hs as [Ha Hs]. apply negb_true_iff in Ha as ->.
    by rewrite IH.
Qed.

Lemma split_segments_lack s c :
  Forall (fun seg => lacks seg c = true) (Str.split s c).
Proof.
  induction s as [|a s IH]; [by repeat constructor|]. simpl.
  destruct (Ascii.eqb a c) eqn:Ha; [by constructor|].
  destruct (Str.split s c) as [|seg rest].
  { repeat constructor. simpl. by rewrite Ha. }
  inversion IH as [|? ? Hseg Hrest]; subst. constructor; [|done].
  simpl. by rewrite Ha, Hseg.
Qed.

Lemma join_cons sep x y (rest : list string) :
  Str.join sep (x :: y :: rest) = x +:+ sep +:+ Str.join sep (y :: rest).
Proof. reflexivity. Qed.

Lemma join_head sep a s (rest : list string) :
  Str.join sep (String a s :: rest) = String a (Str.join sep (s :: rest)).
Proof. destruct rest; reflexivity. Qed.

Lemma join_split s c : Str.join (String c "") (Str.split s c) = s.
Proof.
  induction s as [|a s IH]; [done|]. simpl.
  destruct (Ascii.eqb_spec a c) as [->|Hne].
  - destruct (Str.split s c) as [|seg rest] eqn:Hsp.
    + by destruct (split_nonempty s c).
    + rewrite join_cons, IH. reflexivity.
  - destruct (Str.split s c) as [|seg rest] eqn:Hsp.
    + by destruct (split_nonempty s c).
    + by rewrite join_head, IH.
Qed.

Lemma split_join (segs : list string) c :
  segs <> [] -> Forall (fun seg => lacks seg c = true) segs ->
  Str.split (Str.join (String c "") segs) c = segs.
Proof.
  induction segs as [|x [|y rest] IH]; intros Hne Hall; [done|..].
  - simpl. apply split_lacks. by inversion Hall.
  - rewrite join_cons. inversion Hall as [|? ? Hx Hrest]; subst.
    change (x +:+ String c "" +:+ Str.join (String c "") (y :: rest))
      with (x +:+ String c (Str.join (String c "") (y :: rest))).
    rewrite split_app_sep by done. f_equal. by apply IH.
Qed.

End StrFacts.

(** ** Normalised paths and their components *)

Section PathFacts.

Implicit Types (s t : string) (segs init bs : list string).

Lemma seg_ok_first s :
  seg_ok s -> exists a t, s = String a t /\ Ascii.eqb a "/" = false.
Proof.
  intros [Hplain Hlacks]. destruct s as [|a t]; [done|].
  exists a, t. split; [done|]. simpl in Hlacks.
  apply andb_true_iff in Hlacks as [Ha _]. by apply negb_true_iff in Ha.
Qed.

Lemma lacks_last_char s c b :
  lacks s c = true -> last_char s = Some b -> b <> c.
Proof.
  induction s as [|a s IH]; [done|]. simpl.
  intros [Ha Hs]%andb_true_iff Hl.
  destruct (last_char s) as [b'|].
  - apply IH; [done|congruence].
  - injection Hl as <-. by apply Ascii.eqb_neq, negb_true_iff.
Qed.

Lemma seg_ok_last s :
  seg_ok s -> exists b, last_char s = Some b /\ b <> "/"%char.
Proof.
  intros Hok. destruct (seg_ok_first s Hok) as (a & t & -> & _).
  destruct Hok as [_ Hlacks].
  destruct (last_char (String a t)) as [b|] eqn:Hl.
  - exists b. split; [done|]. by apply (lacks_last_char _ _ _ Hlacks).
  - by apply last_char_None in Hl.
Qed.

Lemma seg_ok_dotdot_free s : seg_ok s -> s <> "" /\ s <> "." /\ s <> "..".
Proof.
  intros [Hplain _]. unfold plain_segment in Hplain.
  apply negb_true_iff in Hplain.
  apply orb_false_iff in Hplain as [[H1 H2]%orb_false_iff H3].
  by rewrite !String.eqb_neq in *.
Qed.

Lemma join_app init (rest : list string) :
  rest <> [] ->
  Str.join "/" (init ++ rest) = dir_of init +:+ Str.join "/" rest.
Proof.
  intros Hne. induction init as [|x init IH]; [done|].
  simpl dir_of. rewrite !str_app_assoc, <- IH.
  change ((x :: init) ++ rest) with (x :: (init ++ rest)).
  destruct (init ++ rest) as [|y l] eqn:Happ; [|done].
  apply app_eq_nil in Happ as [_ ?]. done.
Qed.

Lemma dir_of_join init :
  init <> [] -> dir_of init = Str.join "/" init +:+ "/".
Proof.
  induction init as [|x [|y init] IH]; intros Hne; [done|done|].
  rewrite join_cons, !str_app_assoc, <- IH by done. done.
Qed.

Lemma slash_dir_of init : "/" +:+ dir_of init = parent_of init +:+ "/".
Proof.
  destruct init as [|x init]; [done|].
  unfold parent_of, path_of. rewrite dir_of_join by done.
  by rewrite !str_app_assoc.
Qed.

Lemma join_first s (rest : list string) :
  seg_ok s ->
  exists a t,
    Str.join "/" (s :: rest) = String a t /\ Ascii.eqb a "/" = false.
Proof.
  intros Hok. destruct (seg_ok_first s Hok) as (a & t & -> & Ha).
  exists a. rewrite join_head. by eexists.
Qed.

Lemma join_last segs :
  segs <> [] -> Forall seg_ok segs ->
  exists b, last_char (Str.join "/" segs) = Some b /\ b <> "/"%char.
Proof.
  intros Hne Hall.
  destruct (exists_last Hne) as (init & l & ->).
  apply Forall_app in Hall as [_ Hl]. inversion Hl as [|? ? Hok _]; subst.
  rewrite join_app by done. simpl Str.join.
  rewrite last_char_app.
  destruct (seg_ok_last l Hok) as (b & -> & Hb). by exists b.
Qed.

Lemma path_of_nil : path_of [] = "/".
Proof. reflexivity. Qed.

Lemma path_of_not_root segs :
  segs <> [] -> Forall seg_ok segs -> String.eqb (path_of segs) "/" = false.
Proof.
  intros Hne Hall. destruct segs as [|s rest]; [done|].
  inversion Hall as [|? ? Hok _]; subst.
  destruct (join_first s rest Hok) as (a & t & Hj & _).
  unfold path_of. by rewrite Hj.
Qed.

Lemma split_path_of segs :
  segs <> [] -> Forall (fun seg => lacks seg "/" = true) segs ->
  Str.split (path_of segs) "/" = "" :: segs.
Proof.
  intros Hne Hall. unfold path_of.
  change ("/" +:+ Str.join "/" segs)
    with ("" +:+ String "/" (Str.join "/" segs)).
  rewrite split_app_sep by done. f_equal. by apply split_join.
Qed.

Lemma seg_ok_lacks segs :
  Forall seg_ok segs -> Forall (fun seg => lacks seg "/" = true) segs.
Proof. intros H. eapply Forall_impl; [exact H|]. by intros s [_ ?]. Qed.

Lemma components_path_of segs :
  Forall seg_ok segs -> components (path_of segs) = segs.
Proof.
  intros Hall. unfold components.
  destruct segs as [|s rest]; [done|].
  rewrite path_of_not_root by done.
  by rewrite split_path_of by (done || by apply seg_ok_lacks).
Qed.

Lemma normalised_path_of p :
  normalised p = true ->
  Forall seg_ok (components p) /\ p = path_of (components p).
Proof.
  unfold normalised. intros [Hstart Hplain]%andb_true_iff.
  destruct p as [|a p]; [done|].
  change (Str.startswith (String a p) "/")
    with (Ascii.eqb "/" a && true) in Hstart.
  apply andb_true_iff in Hstart as [Ha _].
  apply Ascii.eqb_eq in Ha. subst a.
  unfold components in *.
  destruct (String.eqb_spec (String "/" p) "/") as [Heq|Hne].
  { injection Heq as ->. by split. }
  change (Str.split (String "/" p) "/") with ("" :: Str.split p "/") in *.
  simpl tl in *.
  split.
  - apply Forall_forall. intros seg Hin. split.
    + rewrite forallb_forall in Hplain. by apply Hplain, list_elem_of_In.
    + pose proof (split_segments_lack p "/") as Hl.
      rewrite Forall_forall in Hl. by apply Hl.
  - unfold path_of. by rewrite join_split.
Qed.

Lemma valid_path_of segs :
  Forall seg_ok segs -> assertValid (path_of segs) = Ok tt.
Proof.
  intros Hall. unfold assertValid.
  destruct segs as [|s rest]; [done|].
  rewrite path_of_not_root by done.
  change (Str.startswith (path_of (s :: rest)) "/") with true.
  cbv beta iota delta [negb andb].
  rewrite endswith_char. unfold path_of. rewrite last_char_app.
  destruct (join_last (s :: rest)) as (b & -> & Hb); [done|done|].
  by apply Ascii.eqb_neq in Hb as ->.
Qed.

Lemma path_of_snoc init l :
  path_of (init ++ [l]) = parent_of init +:+ String "/" l.
Proof.
  unfold path_of. rewrite join_app by done. simpl Str.join.
  rewrite <- str_app_assoc, slash_dir_of. by rewrite str_app_assoc.
Qed.

Lemma head_path_of bs :
  Forall seg_ok bs ->
  Str.slice_to (path_of bs) (Str.rfind (path_of bs) "/" + 1)
  = "/" +:+ dir_of (removelast bs).
Proof.
  intros Hall. destruct bs as [|b0 bs'] using rev_ind; [done|].
  clear IHbs'. rewrite removelast_last, path_of_snoc.
  apply Forall_app in Hall as [_ Hl]. inversion Hl as [|? ? [_ Hlacks] _].
  rewrite rfind_app_last by done. rewrite slash_dir_of.
  change (parent_of bs' +:+ String "/" b0)
    with (parent_of bs' +:+ ("/" +:+ b0)).
  rewrite <- str_app_assoc.
  replace (Str.len (parent_of bs') + 1) with (Str.len (parent_of bs' +:+ "/"))
    by (by rewrite len_app).
  apply slice_to_app.
Qed.

Lemma dirname_strips h a t :
  h = String "/" (String a t) -> Ascii.eqb a "/" = false ->
  (if negb (String.eqb h "") && negb (Str.all_char "/" h)
   then Str.rstrip h "/" else h)
  = Str.rstrip h "/".
Proof.
  intros -> Ha.
  change (Str.all_char "/" (String "/" (String a t)))
    with (Ascii.eqb a "/" && Str.all_char "/" t).
  by rewrite Ha.
Qed.

Lemma dirname_path_of bs :
  Forall seg_ok bs -> os_path.dirname (path_of bs) = path_of (removelast bs).
Proof.
  intros Hall. unfold os_path.dirname, os_path.sep.
  rewrite head_path_of by done.
  assert (Hinit : Forall seg_ok (removelast bs)).
  { destruct bs as [|b0 bs'] using rev_ind; [done|].
    rewrite removelast_last. by apply Forall_app in Hall as [? _]. }
  destruct (removelast bs) as [|s init]; [done|].
  rewrite dir_of_join by done.
  inversion Hinit as [|? ? Hs _]; subst.
  destruct (join_first s init Hs) as (a & t & Hj & Ha).
  rewrite (dirname_strips _ a (t +:+ "/")); [|by rewrite Hj|done].
  rewrite <- str_app_assoc.
  change ("/" +:+ Str.join "/" (s :: init)) with (path_of (s :: init)).
  rewrite rstrip_app_char.
  destruct (join_last (s :: init)) as (b & Hb & Hne); [done|done|].
  apply (rstrip_clean _ _ b); [|done].
  unfold path_of. by rewrite last_char_app, Hb.
Qed.

(** *** [normpath] and [relpath] on normalised paths *)

Lemma join_not_absolute segs :
  Forall seg_ok segs -> Str.startswith (Str.join "/" segs) "/" = false.
Proof.
  intros Hall. destruct segs as [|s rest]; [done|].
  inversion Hall as [|? ? Hs _]; subst.
  destruct (join_first s rest Hs) as (a & t & -> & Ha).
  change (Str.startswith (String a t) "/") with (Ascii.eqb "/" a && true).
  by rewrite Ascii.eqb_sym, Ha.
Qed.

Lemma normpath_step_plain s (acc : list string) :
  seg_ok s -> os_path.normpath_step 1 acc s = acc ++ [s].
Proof.
  intros Hs. destruct (seg_ok_dotdot_free s Hs) as (H1 & H2 & H3).
  unfold os_path.normpath_step.
  apply String.eqb_neq in H1, H2, H3. by rewrite H1, H2, H3.
Qed.

Lemma normpath_steps segs (acc : list string) :
  Forall seg_ok segs ->
  fold_left (os_path.normpath_step 1) segs acc = acc ++ segs.
Proof.
  intros Hall. revert acc.
  induction Hall as [|s segs Hs _ IH]; intros acc.
  - by rewrite app_nil_r.
  - simpl. rewrite normpath_step_plain, IH by done.
    by rewrite <- app_assoc.
Qed.

Lemma normpath_path_of segs :
  Forall seg_ok segs -> os_path.normpath (path_of segs) = path_of segs.
Proof.
  intros Hall. destruct segs as [|s rest]; [done|].
  unfold os_path.normpath, os_path.sep.
  change (String.eqb (path_of (s :: rest)) "") with false.
  change (Str.startswith (path_of (s :: rest)) "/") with true.
  change (Str.startswith (path_of (s :: rest)) "//")
    with (Str.startswith (Str.join "/" (s :: rest)) "/").
  rewrite join_not_absolute by done.
  rewrite split_path_of by (done || by apply seg_ok_lacks).
  cbv beta iota zeta delta [andb].
  change (fold_left (os_path.normpath_step 1) ("" :: s :: rest) [])
    with (fold_left (os_path.normpath_step 1) (s :: rest) []).
  rewrite normpath_steps by done.
  done.
Qed.

Lemma lstrip_join segs :
  Forall seg_ok segs ->
  Str.lstrip (Str.join "/" segs) "/" = Str.join "/" segs.
Proof.
  intros Hall. destruct segs as [|s rest]; [done|].
  inversion Hall as [|? ? Hs _]; subst.
  destruct (join_first s rest Hs) as (a & t & -> & Ha).
  simpl. by rewrite Ha.
Qed.

Lemma join2_clean path b x :
  last_char path = Some x -> x <> "/"%char ->
  Str.startswith b "/" = false ->
  os_path.join2 path b = path +:+ "/" +:+ b.
Proof.
  intros Hl Hx Hb. unfold os_path.join2. rewrite Hb.
  rewrite endswith_char, Hl.
  apply Ascii.eqb_neq in Hx as ->.
  destruct path; [done|done].
Qed.

Lemma join_app2 (l1 l2 : list string) :
  l1 <> [] -> l2 <> [] ->
  Str.join "/" (l1 ++ l2) = Str.join "/" l1 +:+ "/" +:+ Str.join "/" l2.
Proof.
  intros H1 H2. rewrite join_app, dir_of_join by done.
  by rewrite str_app_assoc.
Qed.

Lemma last_char_dots n :
  last_char (Str.join "/" (repeat ".." (S n))) = Some "."%char.
Proof.
  induction n as [|n IH]; [done|].
  change (repeat ".." (S (S n))) with (".." :: repeat ".." (S n)).
  change (repeat ".." (S n)) with (".." :: repeat ".." n) at 1.
  rewrite join_cons.
  change (".." :: repeat ".." n) with (repeat ".." (S n)).
  by rewrite !last_char_app, IH.
Qed.

Lemma ospath_join_dots n :
  os_path.join ".." (repeat ".." n) = Str.join "/" (repeat ".." (S n)).
Proof.
  induction n as [|n IH]; [done|].
  unfold os_path.join in *.
  replace (repeat ".." (S n)) with (repeat ".." n ++ [".."])
    by (symmetry; apply repeat_cons).
  rewrite fold_left_app, IH. simpl fold_left.
  rewrite (join2_clean _ _ "."%char); [|apply last_char_dots|done|done].
  transitivity (Str.join "/" (repeat ".." (S n) ++ [".."])).
  - by rewrite join_app2.
  - by rewrite <- repeat_cons.
Qed.

Lemma commonprefix_len_nil (l : list string) :
  os_path.commonprefix_len l [] = 0%nat.
Proof. by destruct l. Qed.

Lemma relpath_root bs :
  Forall seg_ok bs ->
  os_path.relpath "/" (path_of bs)
  = match bs with
    | [] => "."
    | _ :: _ => Str.join "/" (repeat ".." (length bs))
    end.
Proof.
  intros Hall. unfold os_path.relpath, os_path.sep.
  rewrite normpath_path_of by done.
  change (Str.lstrip (path_of bs) "/") with (Str.lstrip (Str.join "/" bs) "/").
  rewrite lstrip_join by done.
  change (Str.lstrip (os_path.normpath "/") "/") with "".
  cbv beta iota zeta. change (String.eqb "" "") with true. cbv iota.
  destruct bs as [|b bs']; [done|].
  inversion Hall as [|? ? Hb _]; subst.
  destruct (join_first b bs' Hb) as (a & t & Hj & _).
  rewrite Hj at 1. change (String.eqb (String a t) "") with false.
  cbv iota. rewrite split_join by (done || by apply seg_ok_lacks).
  rewrite commonprefix_len_nil, Nat.sub_0_r. simpl skipn.
  rewrite app_nil_r. simpl repeat. apply ospath_join_dots.
Qed.

End PathFacts.

(** ** The relative-path law *)

Section RelpathLaw.

Implicit Types (segs init bs : list string).

Lemma res_bind_Ok {A B : Type} (a : A) (k : A -> res B) :
  (Ok a ≫= k) = k a.
Proof. reflexivity. Qed.

Lemma removelast_ok bs : Forall seg_ok bs -> Forall seg_ok (removelast bs).
Proof.
  intros Hall. destruct bs as [|b0 bs'] using rev_ind; [done|].
  rewrite removelast_last. by apply Forall_app in Hall as [? _].
Qed.

Lemma removelast_length bs : length (removelast bs) = (length bs - 1)%nat.
Proof.
  destruct bs as [|b0 bs'] using rev_ind; [done|].
  rewrite removelast_last, length_app. simpl. lia.
Qed.

Lemma slice_from_path_of segs :
  Str.slice_from (path_of segs) 1 = Str.join "/" segs.
Proof. exact (slice_from_1 "/"%char (Str.join "/" segs)). Qed.

(** What [_relpath] computes, in terms of components. *)
Lemma relpath_components (tgt bs : list string) :
  Forall seg_ok tgt -> Forall seg_ok bs ->
  _relpath (UnsafeUrl (path_of bs)) (path_of tgt)
  = Ok (match repeat ".." (length bs - 1) ++ tgt with
        | [] => "."
        | segs => Str.join "/" segs
        end).
Proof.
  intros Htgt Hbs. unfold _relpath. simpl _path.
  rewrite valid_path_of, res_bind_Ok by done.
  rewrite dirname_path_of by done.
  pose proof (removelast_ok bs Hbs) as Hinit.
  rewrite valid_path_of, res_bind_Ok by done.
  rewrite <- removelast_length.
  destruct tgt as [|a0 tgt'].
  - change (String.eqb (path_of []) "/") with true. cbv iota.
    rewrite relpath_root, app_nil_r by done.
    by destruct (removelast bs).
  - rewrite path_of_not_root by done.
    destruct (removelast bs) as [|i0 init'] eqn:Hrl.
    + change (String.eqb (path_of []) "/") with true. cbv iota.
      by rewrite slice_from_path_of.
    + rewrite path_of_not_root by done.
      rewrite relpath_root by done.
      rewrite slice_from_path_of.
      unfold os_path.join. cbn [fold_left length].
      rewrite (join2_clean _ _ "."%char);
        [|apply last_char_dots|done|by apply join_not_absolute].
      by rewrite <- join_app2.
Qed.

Lemma dots_push (l acc : list string) :
  Forall seg_ok l -> fold_left dots_step l acc = acc ++ l.
Proof.
  intros Hall. revert acc.
  induction Hall as [|s l Hs _ IH]; intros acc.
  - by rewrite app_nil_r.
  - simpl. destruct (seg_ok_dotdot_free s Hs) as (_ & H2 & H3).
    unfold dots_step at 2. apply String.eqb_neq in H2, H3.
    rewrite H2, H3, IH. by rewrite <- app_assoc.
Qed.

Lemma dots_pop (l acc : list string) :
  fold_left dots_step (repeat ".." (length l)) (acc ++ l) = acc.
Proof.
  induction l as [|x l IH] using rev_ind.
  - by rewrite app_nil_r.
  - rewrite length_app, Nat.add_comm. simpl.
    unfold dots_step at 2. simpl.
    by rewrite app_assoc, removelast_last.
Qed.

Lemma dots_fold (init tgt : list string) :
  Forall seg_ok init -> Forall seg_ok tgt ->
  fold_left dots_step (init ++ repeat ".." (length init) ++ tgt) [] = tgt.
Proof.
  intros Hinit Htgt. rewrite !fold_left_app.
  rewrite (dots_push init) by done. rewrite (dots_pop init []).
  by rewrite dots_push.
Qed.

Lemma remove_dots_path (init tgt : list string) :
  Forall seg_ok init -> Forall seg_ok tgt ->
  repeat ".." (length init) ++ tgt <> [] ->
  remove_dot_segments (path_of (init ++ repeat ".." (length init) ++ tgt))
  = path_of tgt.
Proof.
  intros Hinit Htgt Hne. unfold remove_dot_segments.
  rewrite split_path_of.
  - simpl tl. rewrite dots_fold by done.
    destruct tgt as [|t0 tgt'] using rev_ind.
    + simpl length. rewrite andb_false_r. by rewrite str_app_nil_r.
    + rewrite !app_assoc, last_last.
      apply Forall_app in Htgt as [_ Hl]. inversion Hl as [|? ? Ht _].
      destruct (seg_ok_dotdot_free t0 Ht) as (_ & H2 & H3).
      apply String.eqb_neq in H2, H3. rewrite H2, H3. simpl.
      by rewrite str_app_nil_r.
  - intros Hnil. apply app_eq_nil in Hnil as [_ Hnil]. done.
  - apply Forall_app. split; [by apply seg_ok_lacks|].
    apply Forall_app. split; [|by apply seg_ok_lacks].
    apply Forall_forall. intros x Hx.
    apply list_elem_of_In, repeat_spec in Hx. by subst x.
Qed.

(** Resolving the produced string against the base gives the target. *)
Lemma resolve_components (tgt bs : list string) :
  Forall seg_ok tgt -> Forall seg_ok bs ->
  url_resolve (path_of bs)
    (match (repeat ".." (length bs - 1) ++ tgt)%list with
     | [] => "."
     | segs => Str.join "/" segs
     end)
  = path_of tgt.
Proof.
  intros Htgt Hbs. pose proof (removelast_ok bs Hbs) as Hinit.
  rewrite <- removelast_length.
  assert (Hhead := head_path_of bs Hbs).
  destruct (repeat ".." (length (removelast bs)) ++ tgt)
    as [|x0 rel] eqn:Hrel.
  - apply app_eq_nil in Hrel as [Hk ->].
    destruct (removelast bs) as [|? ?]; [|done].
    unfold url_resolve.
    change (Str.startswith "." "/") with false.
    change (String.eqb "." "") with false. cbv iota.
    by rewrite Hhead.
  - assert (Hstart : Str.startswith (Str.join "/" (x0 :: rel)) "/" = false).
    { destruct (removelast bs) as [|? ?].
      - simpl in Hrel. subst tgt. by apply join_not_absolute.
      - simpl in Hrel. injection Hrel as <- _. by rewrite join_head. }
    assert (Hnonempty : String.eqb (Str.join "/" (x0 :: rel)) "" = false).
    { destruct (removelast bs) as [|? ?].
      - simpl in Hrel. subst tgt. inversion Htgt as [|? ? Hx _]; subst.
        by destruct (join_first x0 rel Hx) as (a & t & -> & _).
      - simpl in Hrel. injection Hrel as <- _. by rewrite join_head. }
    unfold url_resolve. rewrite Hstart, Hnonempty, Hhead.
    rewrite str_app_assoc, <- join_app by done.
    change ("/" +:+ Str.join "/" (removelast bs ++ x0 :: rel))
      with (path_of (removelast bs ++ x0 :: rel)).
    rewrite <- Hrel. apply remove_dots_path; [done|done|].
    by rewrite Hrel.
Qed.

Lemma times_dots (n : nat) (tgt : list string) :
  tgt <> [] ->
  Str.join "/" (repeat ".." n ++ tgt)
  = Str.times "../" n +:+ Str.join "/" tgt.
Proof.
  intros Hne. induction n as [|n IH]; [done|].
  simpl repeat. simpl Str.times. rewrite str_app_assoc, <- IH.
  change ((".." :: repeat ".." n) ++ tgt)
    with (".." :: (repeat ".." n ++ tgt)).
  destruct (repeat ".." n ++ tgt) as [|y l] eqn:Happ.
  - apply app_eq_nil in Happ as [_ ?]. done.
  - rewrite join_cons. by rewrite <- str_app_assoc.
Qed.

End RelpathLaw.

(** C3 (as amended). Between normalised absolute paths A and B, the
    relative path from base B to target A is computed without error, it is
    the canonical string (one ".." per component of B's directory, then the
    components of A), resolving it against B gives A back, and unless A is
    the root it reads "../" repeated, followed by A without its leading
    slash. *)
Theorem relpath_round_trip (A B : string) :
  normalised A = true -> normalised B = true ->
  _relpath (UnsafeUrl B) A = Ok (canonical_relpath A B)
  /\ url_resolve B (canonical_relpath A B) = A
  /\ (A <> "/" ->
      canonical_relpath A B
      = Str.times "../" (length (components B) - 1) +:+ Str.slice_from A 1).
Proof.
  intros [HA EA]%normalised_path_of [HB EB]%normalised_path_of.
  unfold canonical_relpath.
  set (tgt := components A) in *. set (bs := components B) in *.
  rewrite EA, EB. split; [|split].
  - by apply relpath_components.
  - by apply resolve_components.
  - intros Hroot. rewrite slice_from_path_of.
    destruct tgt as [|t0 tgt'] eqn:Htgt; [done|].
    rewrite <- times_dots by done.
    by destruct (repeat ".." (length bs - 1) ++ t0 :: tgt') eqn:Happ;
      [apply app_eq_nil in Happ as [_ ?]|].
Qed.

Lemma relpath_round_trip_witness :
  _relpath (UnsafeUrl "/en/about.html") "/en/index.html"
  = Ok "../en/index.html"
  /\ url_resolve "/en/about.html" "../en/index.html" = "/en/index.html".
Proof.
  destruct (relpath_round_trip "/en/index.html" "/en/about.html")
    as (H1 & H2 & _); [reflexivity|reflexivity|].
  split; [exact H1 | exact H2].
Defined.

(** The law as worded does not hold for all valid paths: "//a" passes
    [assertValid], but its directory "//" does not, and [_relpath] raises
    instead of returning a relative path. *)
Lemma relpath_law_fails :
  valid_path "/x" = true /\ valid_path "//a" = true
  /\ ~ relpath_law "/x" "//a".
Proof.
  split; [reflexivity|]. split; [reflexivity|].
  intros (r & Hr & _). vm_compute in Hr. discriminate.
Qed.

(** ** Configuration lookup *)

Section ConfigLookup.





End ConfigLookup.



(** ** Default URLs *)

Section DefaultUrl.

Lemma last_char_Some (s : string) : s <> "" -> exists b, last_char s = Some b.
Proof.
  intros Hne. destruct (last_char s) as [b|] eqn:Hl; [by exists b|].
  by apply last_char_None in Hl.
Qed.

Lemma assertValid_ok (s : string) (b : ascii) :
  Str.startswith s "/" = true -> last_char s = Some b -> b <> "/"%char ->
  assertValid s = Ok tt.
Proof.
  intros Hs Hl Hb. unfold assertValid.
  rewrite Hs, endswith_char, Hl.
  apply Ascii.eqb_neq in Hb as ->. by rewrite andb_false_r.
Qed.

End DefaultUrl.




(** ** Labels: registration and resolution *)

Section Labels.

Implicit Types (p : PageInfo) (w : World) (label : string).

Lemma label_hits_absent label ttl (l : list (string * Url)) :
  label ∉ l.*1 -> flat_map (label_hit label ttl) l = [].
Proof.
  induction l as [|[k v] l IH]; [done|]. simpl. intros Hnot.
  destruct (String.eqb_spec k label) as [->|Hne].
  - exfalso. apply Hnot. left.
  - simpl. apply IH. intros Hin. apply Hnot. by right.
Qed.

Lemma label_hits_present label ttl (l : list (string * Url)) (t : Url) :
  NoDup l.*1 -> (label, t) ∈ l ->
  flat_map (label_hit label ttl) l = [(t, ttl)].
Proof.
  induction l as [|[k v] l IH]; intros Hnd Hin.
  - by apply elem_of_nil in Hin.
  - simpl in *. apply NoDup_cons in Hnd as [Hk Hnd].
    apply elem_of_cons in Hin as [Heq|Hin].
    + injection Heq as <- <-. rewrite String.eqb_refl. simpl.
      by rewrite label_hits_absent.
    + destruct (String.eqb_spec k label) as [->|Hne].
      * exfalso. apply Hk. apply list_elem_of_fmap. by exists (label, t).
      * simpl. by apply IH.
Qed.

(** The scan of a page's labels finds what the dictionary binds. *)
Lemma found_in_page_lookup label (lang' : option string) p :
  found_in_page label lang' p
  = if lang_mismatch (lang p) lang' then []
    else match labels p !! label with
         | Some t => [(t, title p)]
         | None => []
         end.
Proof.
  unfold found_in_page. destruct (lang_mismatch _ _); [done|].
  destruct (labels p !! label) as [t|] eqn:Hl.
  - apply label_hits_present.
    + apply NoDup_fst_map_to_list.
    + by apply elem_of_map_to_list.
  - apply label_hits_absent. intros Hin.
    apply list_elem_of_fmap in Hin as [[k v] [-> Hin]].
    apply elem_of_map_to_list in Hin. simpl in *. congruence.
Qed.

Lemma find_label_none label (lang' : option string)
    (ps : list (string * PageInfo)) :
  (forall path p, (path, p) ∈ ps -> labels p !! label = None) ->
  find_label label lang' ps = [].
Proof.
  unfold find_label.
  induction ps as [|[path p] ps IH]; intros H; [done|]. simpl.
  rewrite found_in_page_lookup, (H path p) by left.
  rewrite IH; [by destruct (lang_mismatch _ _)|].
  intros path' p' Hin. apply (H path' p'). by right.
Qed.

Lemma find_label_elem label (lang' : option string)
    (ps : list (string * PageInfo)) path p (t : Url) :
  (path, p) ∈ ps -> labels p !! label = Some t ->
  lang_mismatch (lang p) lang' = false ->
  (t, title p) ∈ find_label label lang' ps.
Proof.
  intros Hin Hl Hlang. unfold find_label.
  apply list_elem_of_In, in_flat_map. exists (path, p). split.
  - by apply list_elem_of_In.
  - apply list_elem_of_In. rewrite found_in_page_lookup, Hlang, Hl. left.
Qed.

Lemma resolve_label_pages (src : PageInfo) (token : string)
    (lang' : option string) w :
  pages (resolve_label src token lang' w).2 = pages w.
Proof.
  unfold resolve_label.
  destruct (find_label _ _ _) as [|hit [|? ?]]; done.
Qed.

Lemma count_absent (K : string) (l : list string) :
  K ∉ l -> filter (fun x => x = K) l = [].
Proof.
  induction l as [|x l IH]; intros Hnot; [done|].
  rewrite filter_cons. destruct (decide (x = K)) as [->|Hne].
  - exfalso. apply Hnot. left.
  - apply IH. intros Hin. apply Hnot. by right.
Qed.

Lemma count_once (K : string) (l : list string) :
  NoDup l -> K ∈ l -> length (filter (fun x => x = K) l) = 1%nat.
Proof.
  induction l as [|x l IH]; intros Hnd Hin.
  - by apply elem_of_nil in Hin.
  - apply NoDup_cons in Hnd as [Hx Hnd].
    rewrite filter_cons. destruct (decide (x = K)) as [->|Hne].
    + simpl. by rewrite count_absent.
    + apply IH; [done|]. apply elem_of_cons in Hin as [?|?]; congruence.
Qed.

End Labels.

(** C7. When no page defines the fully-qualified key K, every resolution
    of a token that qualifies to K returns the null target and leaves K in
    the set of unresolved labels; K occurs there once, and resolving it
    again, from any page, changes nothing. *)
Theorem unresolved_label_recorded (w : World) (src : PageInfo)
    (token : string) (lang' : option string) :
  let K := qualify src token in
  (forall path p, (path, p) ∈ pages w -> labels p !! K = None) ->
  exists w',
    resolve_label src token lang' w = ((None, ""), w')
    /\ pages w' = pages w
    /\ K ∈ unresolved_labels w'
    /\ length (filter (fun x => x = K) (elements (unresolved_labels w')))
       = 1%nat
    /\ (forall src2 token2 lang2,
          qualify src2 token2 = K ->
          resolve_label src2 token2 lang2 w' = ((None, ""), w')).
Proof.
  intros K Hnone. eexists. split; [|split; [|split; [|split]]].
  - unfold resolve_label. fold K. by rewrite find_label_none.
  - done.
  - simpl. set_solver.
  - apply count_once; [apply NoDup_elements|].
    apply elem_of_elements. simpl. set_solver.
  - intros src2 token2 lang2 Hq. unfold resolve_label. rewrite Hq. simpl.
    rewrite find_label_none by done. do 2 f_equal.
    by rewrite (assoc_L (∪)), (idemp_L (∪)).
Qed.

Lemma unresolved_label_recorded_witness :
  exists w',
    resolve_label lonely_page "nowhere" (Some "en") lonely_world
    = ((None, ""), w')
    /\ ":nowhere" ∈ unresolved_labels w'
    /\ resolve_label lonely_page "nowhere" None w' = ((None, ""), w').
Proof.
  destruct (unresolved_label_recorded lonely_world lonely_page "nowhere"
              (Some "en")) as (w' & Hr & _ & Hin & _ & Hagain).
  - intros path p Hin. apply list_elem_of_singleton in Hin.
    injection Hin as Hpath Hp. subst p. reflexivity.
  - exists w'. split; [exact Hr|]. split; [exact Hin|].
    apply Hagain. reflexivity.
Defined.

(** C8. Registering the bare name n on a page twice, first with target t1
    and then with t2, succeeds both times; the second registration prints
    an error that names the fully-qualified label, and the page's labels
    end up binding that key to t2. *)
Theorem add_label_twice (P : PageInfo) (n : string) (t1 t2 : Url)
    (out : Console) :
  Str.startswith n "@" = false ->
  let key := label_namespace P +:+ ":" +:+ n in
  exists P1 out1 P2,
    add_label P n t1 out = Ok (P1, out1)
    /\ add_label P1 n t2 out1
       = Ok (P2, out1 ++ [DErr ("multiple definitions of label " +:+ key
                               +:+ "; overriding to '" +:+ _path t2 +:+ "'")])
    /\ labels P2 !! key = Some t2
    /\ labels P2 = <[key := t2]> (labels P).
Proof.
  intros Hn key. unfold add_label. rewrite Hn. simpl.
  do 3 eexists. split; [reflexivity|]. fold key. cbn [labels set_labels].
  rewrite lookup_insert_eq. split; [reflexivity|]. split.
  - apply lookup_insert_eq.
  - apply insert_insert_eq.
Qed.

Lemma add_label_twice_witness :
  exists P1 out1 P2,
    add_label lonely_page "here" (UnsafeUrl "/x") [] = Ok (P1, out1)
    /\ add_label P1 "here" (UnsafeUrl "/y") out1
       = Ok (P2, out1 ++ [DErr "multiple definitions of label :here; overriding to '/y'"])
    /\ labels P2 !! ":here" = Some (UnsafeUrl "/y").
Proof.
  destruct (add_label_twice lonely_page "here" (UnsafeUrl "/x")
              (UnsafeUrl "/y") []) as (P1 & out1 & P2 & H1 & H2 & H3 & _).
  - reflexivity.
  - exists P1, out1, P2. split; [exact H1|]. split; [exact H2 | exact H3].
Defined.

(** C9. Registration and resolution qualify a bare name the same way:
    [add_label] on a page with namespace N stores the name n under the key
    N + ":" + n, [resolve_label] called from a page with namespace N looks
    the token n up under that same key, and so the label is among the hits
    (and the result is not null) whenever the defining page is in the page
    set and its language does not conflict with the constraint. *)
Theorem label_qualification_agrees (P Q P' : PageInfo) (n : string)
    (t : Url) (out out' : Console) (w : World) (path : string)
    (lang' : option string) :
  Str.startswith n "@" = false ->
  Str.startswith n ":" = false ->
  add_label P n t out = Ok (P', out') ->
  label_namespace Q = label_namespace P ->
  (path, P') ∈ pages w ->
  lang_mismatch (lang P') lang' = false ->
  let key := label_namespace P +:+ ":" +:+ n in
  labels P' = <[key := t]> (labels P)
  /\ qualify Q n = key
  /\ (t, title P') ∈ find_label key lang' (pages w)
  /\ exists target p_title w',
       resolve_label Q n lang' w = ((Some target, p_title), w')
       /\ (target, p_title) ∈ find_label key lang' (pages w)
       /\ unresolved_labels w' = unresolved_labels w.
Proof.
  intros Hat Hcolon Hadd Hns Hin Hlang key.
  unfold add_label in Hadd. rewrite Hat in Hadd. fold key in Hadd.
  injection Hadd as <- <-.
  assert (Hq : qualify Q n = key).
  { unfold qualify. by rewrite Hcolon, Hns. }
  assert (Hhit : (t, title P) ∈ find_label key lang' (pages w)).
  { apply (find_label_elem key lang' (pages w) path _ t Hin); [|done].
    simpl. apply lookup_insert_eq. }
  split; [done|]. split; [done|]. split; [done|].
  unfold resolve_label. rewrite Hq.
  destruct (find_label key lang' (pages w)) as [|[target ttl] others] eqn:Hf.
  - by apply elem_of_nil in Hhit.
  - exists target, ttl. eexists. split; [reflexivity|]. split; [left|].
    by destruct others.
Qed.

Lemma label_qualification_agrees_witness :
  exists target p_title w',
    resolve_label LabelDemo.about "home" (Some "en") LabelDemo.world
    = ((Some target, p_title), w').
Proof.
  destruct (label_qualification_agrees LabelDemo.home LabelDemo.about
              LabelDemo.home_labelled "home" (UnsafeUrl "/index") [] []
              LabelDemo.world "index.md" (Some "en"))
    as (_ & _ & _ & target & p_title & w' & Hr & _).
  - reflexivity.
  - reflexivity.
  - reflexivity.
  - reflexivity.
  - right. left.
  - reflexivity.
  - exists target, p_title, w'. exact Hr.
Defined.

(** C10. [resolve_label] leaves the page set as it was.  The set of
    unresolved labels gains the qualified key when there is no hit and is
    unchanged otherwise.  (The console gets one error line when there are
    several hits, and nothing otherwise.) *)
Theorem resolve_label_frame (w : World) (src : PageInfo) (token : string)
    (lang' : option string) :
  let K := qualify src token in
  let found := find_label K lang' (pages w) in
  let w' := (resolve_label src token lang' w).2 in
  pages w' = pages w
  /\ unresolved_labels w'
     = (if decide (found = []) then {[K]} ∪ unresolved_labels w
        else unresolved_labels w)
  /\ console w'
     = (if decide (1 < length found)%nat
        then console w
             ++ [DErr ("multiple definitions of label @" +:+ K +:+ " found")]
        else console w).
Proof.
  intros K found w'. subst w'. unfold resolve_label. fold K. fold found.
  by destruct found as [|hit [|hit2 others]].
Qed.

(** ** Reference rewriting *)

(** C1. In the run of the scenario, [index.md] gets the language "en" and
    the URL /en/index.html, and after the patching pass the link in
    [about.md] points to "../en/index.html", relative to /en/about.html;
    its text is the home page's title if it was the token "@home", and is
    left alone otherwise. *)
Theorem end_to_end_home_link (home_title : string)
    (link_text : option string) :
  exists w index about,
    Scenario.run home_title link_text = Ok (tt, w)
    /\ dict_get (pages w) "index.md" = Some index
    /\ lang index = Some "en"
    /\ title index = home_title
    /\ labels index !! ":home" = Some (UnsafeUrl "/en/index.html")
    /\ url index = Ok (UnsafeUrl "/en/index.html")
    /\ dict_get (pages w) "about.md" = Some about
    /\ url about = Ok (UnsafeUrl "/en/about.html")
    /\ tree about
       = Some (Scenario.about_tree (AStr "../en/index.html")
                 (if decide (link_text = Some "@home")
                  then Some home_title else link_text))
    /\ unresolved_labels w = ∅.
Proof.
  eexists _, _, _. split; [vm_compute; reflexivity|].
  repeat split; vm_compute; reflexivity.
Qed.

(** A reference that starts with "=:" also starts with "=", so the first
    test of [replace_url] takes it: the local static rule is applied to
    the remainder after "=", colon included. *)
Lemma replace_url_global_prefix (p : PageInfo) (remainder : string) :
  replace_url p (Some (AStr ("=:" +:+ remainder)))
  = (target ← lift (Url_div (localStaticUrl p) (":" +:+ remainder));
     new_url ← lift (relpath p target);
     mret (Some new_url, None, None)).
Proof.
  unfold replace_url.
  change ("=:" +:+ remainder) with (String "=" (":" +:+ remainder)).
  by rewrite slice_from_1.
Qed.

(** C4. For the page guide/intro, whose local static folder is
    /static/guide, the reference "=:logo.png" is rewritten with the local
    static rule, to "../static/guide/:logo.png"; the global static rule
    gives "../static/logo.png". *)
Theorem global_static_reference_rewritten_locally :
  replace_url StaticRefs.intro (Some (AStr "=:logo.png")) StaticRefs.world
  = Ok ((Some "../static/guide/:logo.png", None, None), StaticRefs.world)
  /\ global_static_rule StaticRefs.intro "logo.png"
     = Ok "../static/logo.png".
Proof. split; vm_compute; reflexivity. Qed.

(** Whatever the reference, the [src] attribute an image is left with is
    the triple, never a string. *)
Lemma patch_img_stores_triple (p : PageInfo) (img : Element) (w : World) :
  match patch_img p img w with
  | Ok ((att, txt), _) =>
      txt = text img /\ exists t, att !! "src" = Some (ATuple t)
  | Raise _ => True
  end.
Proof.
  unfold patch_img, mbind, M_mbind.
  destruct (replace_url p (attrib img !! "src") w) as [[t w']|e]; [|done].
  simpl. split; [done|]. exists t. apply lookup_insert_eq.
Qed.

(** C5. Patching a tree of the page guide/intro that holds the image
    reference "=diagram.png" leaves the image's [src] attribute holding
    the triple (URL, None, None) that [replace_url] returned, not the URL
    string "../static/guide/diagram.png". *)
Theorem image_source_set_to_triple :
  patch_static_urls StaticRefs.intro
    (StaticRefs.figure (AStr "=diagram.png")) StaticRefs.world
  = Ok (StaticRefs.figure
          (ATuple (Some "../static/guide/diagram.png", None, None)),
        StaticRefs.world).
Proof. vm_compute. reflexivity. Qed.

(** * Further properties of the code *)

(** ** Terminal strings (util.py) *)

Lemma termlen_loop_app (a b : string) (st : Z * bool) :
  termlen_loop (a +:+ b) st = termlen_loop b (termlen_loop a st).
Proof.
  revert st. induction a as [|c a IH]; intros st; [done|].
  rewrite str_app_cons. simpl. apply IH.
Qed.

Lemma termlen_step_shift (l : Z) (e : bool) (c : ascii) :
  termlen_step (l, e) c
  = (l + fst (termlen_step (0, e) c), snd (termlen_step (0, e) c)).
Proof.
  unfold termlen_step.
  destruct (Ascii.eqb c ESC), e, (Ascii.eqb c "m"); simpl; f_equal; lia.
Qed.

Lemma termlen_loop_shift (s : string) (l : Z) (e : bool) :
  termlen_loop s (l, e)
  = (l + fst (termlen_loop s (0, e)), snd (termlen_loop s (0, e))).
Proof.
  revert l e. induction s as [|c s IH]; intros l e.
  - simpl. f_equal. lia.
  - cbn [termlen_loop]. rewrite termlen_step_shift.
    destruct (termlen_step (0, e) c) as [d e'] eqn:Hstep. cbn [fst snd].
    rewrite (IH (l + d)), (IH d). simpl. f_equal. lia.
Qed.

Lemma styles_get_In (table : list (ascii * string)) (c : ascii)
    (code : string) :
  styles_get table c = Some code -> In code (map snd table).
Proof.
  induction table as [|[k v] table IH]; [done|]. simpl.
  destruct (Ascii.eqb k c); [|by right; apply IH].
  intros [= ->]. by left.
Qed.

(** Each escape sequence [style] can emit is skipped by [termlen]. *)
Lemma style_code_invisible (code : string) (l : Z) (e : bool) :
  In code (map snd styles) ->
  termlen_loop (String ESC "[" +:+ code +:+ "m") (l, e) = (l, false).
Proof.
  intros Hin. rewrite termlen_loop_shift.
  assert (H : termlen_loop (String ESC "[" +:+ code +:+ "m") (0, e)
              = (0, false)).
  { simpl in Hin. destruct e;
      repeat (destruct Hin as [<-|Hin]; [vm_compute; reflexivity|]); done. }
  rewrite H. simpl. f_equal. lia.
Qed.

Lemma style_before_invisible (style_spec before : string) (l : Z) :
  termlen_loop before (l, false) = (l, false) ->
  termlen_loop (style_before style_spec before) (l, false) = (l, false).
Proof.
  revert before. induction style_spec as [|c spec IH]; intros before Hb;
    [done|].
  cbn [style_before]. apply IH.
  destruct (styles_get styles c) as [code|] eqn:Hc; [|done].
  rewrite termlen_loop_app, Hb.
  apply style_code_invisible. by apply (styles_get_In styles c).
Qed.

(** X1. Styling never changes the width [termlen] measures: for every
    string and every style specification,
    [termlen(style(s, spec)) == termlen(s)]. *)
Theorem termlen_style (s style_spec : string) :
  termlen (style s style_spec) = termlen s.
Proof.
  unfold style. destruct (String.eqb style_spec ""); [done|].
  unfold termlen. rewrite !termlen_loop_app.
  rewrite (style_before_invisible style_spec "" 0) by done.
  destruct (termlen_loop s (0, false)) as [l e].
  rewrite termlen_loop_shift.
  by destruct e; vm_compute; destruct l.
Qed.

Lemma termlen_spaces (k : nat) (l : Z) :
  termlen_loop (Str.times " " k) (l, false) = (l + Z.of_nat k, false).
Proof.
  revert l. induction k as [|k IH]; intros l.
  - simpl. f_equal. lia.
  - simpl Str.times. rewrite termlen_loop_app. simpl termlen_loop at 2.
    unfold termlen_step. simpl. rewrite IH. f_equal. lia.
Qed.

(** X2. For a string whose escape sequences are all closed,
    [termljust(s, n)] is [s] padded to the visible width [n]: its
    [termlen] is the larger of [n] and [termlen(s)]. *)
Theorem termlen_termljust (s : string) (n : Z) :
  escapes_closed s = true ->
  termlen (termljust s n) = Z.max n (termlen s).
Proof.
  unfold escapes_closed, termljust, ljust, termlen.
  intros Hclosed%negb_true_iff. rewrite termlen_loop_app.
  destruct (termlen_loop s (0, false)) as [l e]. simpl in *. subst e.
  rewrite termlen_spaces. simpl. lia.
Qed.

Lemma termlen_termljust_witness :
  termlen (termljust (style "fr" "c") 6) = 6
  /\ Str.len (termljust (style "fr" "c") 6) = 15.
Proof.
  split; [|reflexivity].
  apply (termlen_termljust (style "fr" "c") 6). reflexivity.
Defined.

(** ** URL values (util.py) *)

Lemma valid_path_cases (p : string) :
  valid_path p = true ->
  Str.startswith p "/" = true /\ (p = "/" \/ Str.endswith p "/" = false).
Proof.
  unfold valid_path. intros [Hs Hv]%andb_true_iff. split; [done|].
  destruct (String.eqb_spec p "/") as [->|Hne]; [by left|right].
  simpl in Hv. by apply negb_true_iff in Hv.
Qed.

Lemma startswith_app (s t : string) :
  Str.startswith s "/" = true -> Str.startswith (s +:+ t) "/" = true.
Proof. destruct s as [|a s]; [done|]. by rewrite str_app_cons. Qed.

Lemma endswith_false_last (s : string) :
  s <> "" -> Str.endswith s "/" = false ->
  exists b, last_char s = Some b /\ b <> "/"%char.
Proof.
  intros Hne He. destruct (last_char_Some s Hne) as (b & Hb).
  exists b. split; [done|].
  rewrite endswith_char, Hb in He. by apply Ascii.eqb_neq.
Qed.

Lemma addHtmlSuffix_spec (u : Url) :
  valid_path (_path u) = true ->
  addHtmlSuffix u
  = Ok (UnsafeUrl (if String.eqb (_path u) "/" then "/index.html"
                   else _path u +:+ ".html")).
Proof.
  intros (Hs & Hv)%valid_path_cases. unfold addHtmlSuffix.
  destruct Hv as [-> | He]; [done|].
  rewrite He.
  assert (Hne : String.eqb (_path u) "/" = false).
  { apply String.eqb_neq. intros Heq. by rewrite Heq in He. }
  rewrite Hne. unfold mkUrl.
  rewrite (assertValid_ok _ "l"); [done|by apply startswith_app| |done].
  by rewrite last_char_app.
Qed.

(** X3. [addHtmlSuffix] never fails on a valid URL: the root becomes
    /index.html and every other path gets ".html" appended. *)
Theorem addHtmlSuffix_valid (u : Url) :
  valid_path (_path u) = true ->
  addHtmlSuffix u
  = Ok (UnsafeUrl (if String.eqb (_path u) "/" then "/index.html"
                   else _path u +:+ ".html")).
Proof. apply addHtmlSuffix_spec. Qed.

Lemma addHtmlSuffix_valid_witness :
  addHtmlSuffix (UnsafeUrl "/guide/intro")
  = Ok (UnsafeUrl "/guide/intro.html").
Proof. apply (addHtmlSuffix_valid (UnsafeUrl "/guide/intro")). reflexivity. Defined.

(** X4. Joining a relative sub-path that is not empty and has no slash at
    either end onto a valid URL succeeds and appends it after one slash. *)
Theorem Url_div_relative (u : Url) (subdir : string) :
  valid_path (_path u) = true ->
  subdir <> "" ->
  Str.startswith subdir "/" = false ->
  Str.endswith subdir "/" = false ->
  Url_div u subdir
  = Ok (UnsafeUrl (if String.eqb (_path u) "/" then "/" +:+ subdir
                   else _path u +:+ "/" +:+ subdir)).
Proof.
  intros (Hs & Hv)%valid_path_cases Hne Hrel Hend.
  destruct (endswith_false_last subdir Hne Hend) as (b & Hb & Hbs).
  unfold Url_div, os_path.join, os_path.join2. cbn [fold_left].
  rewrite Hrel. destruct Hv as [-> | He].
  - simpl. unfold mkUrl.
    by rewrite (assertValid_ok _ b); [| |by rewrite last_char_app, Hb|].
  - rewrite He.
    assert (Hp : String.eqb (_path u) "" = false).
    { apply String.eqb_neq. intros Heq. by rewrite Heq in Hs. }
    assert (Hr : String.eqb (_path u) "/" = false).
    { apply String.eqb_neq. intros Heq. by rewrite Heq in He. }
    rewrite Hp, Hr. simpl orb. cbv iota. unfold mkUrl.
    rewrite (assertValid_ok _ b); [done|by apply startswith_app| |done].
    by rewrite !last_char_app, Hb.
Qed.

Lemma Url_div_relative_witness :
  Url_div (UnsafeUrl "/static/guide") "img/logo.png"
  = Ok (UnsafeUrl "/static/guide/img/logo.png").
Proof.
  apply (Url_div_relative (UnsafeUrl "/static/guide") "img/logo.png");
    done.
Defined.

(** X5. Two edges of joining: an absolute sub-path replaces the base
    altogether, and the empty sub-path of a URL other than the root is
    refused, because the joined path ends with a slash. *)
Theorem Url_div_edges (u : Url) (subdir : string) :
  valid_path (_path u) = true ->
  (Str.startswith subdir "/" = true -> Url_div u subdir = mkUrl subdir)
  /\ (_path u <> "/" ->
      Url_div u ""
      = Raise (Exception ("invalid path: " +:+ _path u +:+ "/"))).
Proof.
  intros (Hs & Hv)%valid_path_cases. split.
  - intros Habs. unfold Url_div, os_path.join, os_path.join2.
    cbn [fold_left]. by rewrite Habs.
  - intros Hroot. destruct Hv as [Hv | He]; [done|].
    unfold Url_div, os_path.join, os_path.join2. cbn [fold_left].
    change (Str.startswith "" "/") with false. cbv iota.
    rewrite He.
    assert (Hp : String.eqb (_path u) "" = false).
    { apply String.eqb_neq. intros Heq. by rewrite Heq in Hs. }
    rewrite Hp. simpl orb. cbv iota.
    unfold mkUrl, assertValid.
    rewrite (startswith_app _ _ Hs). simpl negb at 1. cbv iota.
    assert (Hn : String.eqb (_path u +:+ "/" +:+ "") "/" = false).
    { apply String.eqb_neq. intros Heq.
      destruct (_path u) as [|a [|a' r]]; try done. }
    rewrite Hn, endswith_char, !last_char_app. done.
Qed.

Lemma Url_div_edges_witness :
  Url_div (UnsafeUrl "/static/guide") "/logo.png" = Ok (UnsafeUrl "/logo.png")
  /\ Url_div (UnsafeUrl "/static/guide") ""
     = Raise (Exception "invalid path: /static/guide/").
Proof.
  destruct (Url_div_edges (UnsafeUrl "/static/guide") "/logo.png") as [H1 _];
    [reflexivity|].
  destruct (Url_div_edges (UnsafeUrl "/static/guide") "") as [_ H2];
    [reflexivity|].
  split; [by apply H1 | by apply H2].
Defined.

(** ** Static folders (collect.py) *)

Lemma longest_prefix_fold (path : string) (statics : list string)
    (best0 : string) :
  let pick := fun best static =>
    if Str.startswith path static && (Str.len best <? Str.len static)
    then static else best in
  let r := fold_left pick statics best0 in
  (r = best0 \/ (In r statics /\ Str.startswith path r = true))
  /\ Str.len best0 <= Str.len r
  /\ (forall s, In s statics -> Str.startswith path s = true ->
                Str.len s <= Str.len r).
Proof.
  intros pick r. subst r. revert best0.
  induction statics as [|x statics IH]; intros best0; cbn [fold_left].
  - split; [by left|]. split; [lia|]. by intros s [].
  - destruct (IH (pick best0 x)) as (Hr & Hlen & Hall). clear IH.
    assert (Hpick : pick best0 x
                    = if Str.startswith path x
                         && (Str.len best0 <? Str.len x)
                      then x else best0) by reflexivity.
    destruct (Str.startswith path x) eqn:Hx;
      destruct (Z.ltb_spec (Str.len best0) (Str.len x)) as [Hlt|Hge];
      cbn [andb] in Hpick; rewrite Hpick in *; clear Hpick;
      (split; [|split]);
      try lia;
      try (destruct Hr as [-> | [Hin Hp]];
           [(by left) || (right; split; [by left|done])
           |right; split; [by right|done]]);
      intros s [<- | Hin] Hs; try lia; try congruence; by apply Hall.
Qed.

(** X6. [localStaticFromPath] returns the empty string or one of the
    bundle's static folders that is a textual prefix of the normalised
    path, and no static folder that is such a prefix is longer than the
    one returned. *)
Theorem localStaticFromPath_longest (b : Bundle) (path : string) :
  let r := localStaticFromPath b path in
  (r = "" \/ (In r (_statics b)
              /\ Str.startswith (os_path.normpath path) r = true))
  /\ (forall s, In s (_statics b) ->
                Str.startswith (os_path.normpath path) s = true ->
                Str.len s <= Str.len r).
Proof.
  intros r. subst r. unfold localStaticFromPath.
  destruct (longest_prefix_fold (os_path.normpath path) (_statics b) "")
    as (H1 & _ & H3).
  by split.
Qed.

(** ** More on labels (__main__.py, collect.py) *)

Lemma find_label_app (label : string) (lang' : option string)
    (ps1 ps2 : list (string * PageInfo)) :
  find_label label lang' (ps1 ++ ps2)
  = find_label label lang' ps1 ++ find_label label lang' ps2.
Proof. unfold find_label. apply flat_map_app. Qed.

Lemma find_label_filtered (label : string) (lang' : option string)
    (ps : list (string * PageInfo)) :
  (forall path p, (path, p) ∈ ps ->
     labels p !! label = None \/ lang_mismatch (lang p) lang' = true) ->
  find_label label lang' ps = [].
Proof.
  unfold find_label.
  induction ps as [|[path p] ps IH]; intros H; [done|]. cbn [flat_map].
  rewrite IH by (intros path' p' Hin; apply (H path' p'); by right).
  rewrite found_in_page_lookup.
  destruct (H path p) as [-> | ->]; [left| |done].
  by destruct (lang_mismatch _ _).
Qed.

Lemma namespace_key_absolute (b : Bundle) (n : string) :
  Str.startswith (labelNamespace b +:+ ":" +:+ n) ":" = true.
Proof. unfold labelNamespace. by destruct (String.eqb (_dir b) "."). Qed.

(** X7. A reference spelled with the full key of a label (the defining
    bundle's namespace, a colon, the name) is used as it is, whatever page
    it comes from: it finds the label registered by [add_label] on a page
    of that bundle, from every page of every bundle, when the languages do
    not conflict. *)
Theorem absolute_reference_found (b : Bundle) (P P' Q : PageInfo)
    (n : string) (t : Url) (out out' : Console) (w : World)
    (path : string) (lang' : option string) :
  label_namespace P = labelNamespace b ->
  Str.startswith n "@" = false ->
  add_label P n t out = Ok (P', out') ->
  (path, P') ∈ pages w ->
  lang_mismatch (lang P') lang' = false ->
  let K := labelNamespace b +:+ ":" +:+ n in
  qualify Q K = K
  /\ (t, title P') ∈ find_label K lang' (pages w)
  /\ exists target p_title w',
       resolve_label Q K lang' w = ((Some target, p_title), w')
       /\ (target, p_title) ∈ find_label K lang' (pages w).
Proof.
  intros Hns Hat Hadd Hin Hlang K.
  unfold add_label in Hadd. rewrite Hat, Hns in Hadd. fold K in Hadd.
  injection Hadd as <- <-.
  assert (Hq : qualify Q K = K).
  { unfold qualify, K. by rewrite namespace_key_absolute. }
  assert (Hhit : (t, title P) ∈ find_label K lang' (pages w)).
  { apply (find_label_elem K lang' (pages w) path _ t Hin); [|done].
    apply lookup_insert_eq. }
  split; [done|]. split; [done|].
  unfold resolve_label. rewrite Hq.
  destruct (find_label K lang' (pages w)) as [|[target p_title] others].
  - by apply elem_of_nil in Hhit.
  - exists target, p_title. eexists. split; [reflexivity|left].
Qed.

(** X8. Where several pages define the key, the page that comes first in
    the page set wins: if no page before [p] has a matching definition
    and [p] has one, the result is [p]'s target and title, nothing is
    added to the unresolved labels, and the ambiguity error is printed
    exactly when a later page has a matching definition too. *)
Theorem resolve_label_first_wins (w : World) (src : PageInfo)
    (token : string) (lang' : option string)
    (before after : list (string * PageInfo)) (path : string)
    (p : PageInfo) (t : Url) :
  let K := qualify src token in
  pages w = before ++ (path, p) :: after ->
  (forall path' q, (path', q) ∈ before ->
     labels q !! K = None \/ lang_mismatch (lang q) lang' = true) ->
  labels p !! K = Some t ->
  lang_mismatch (lang p) lang' = false ->
  exists w',
    resolve_label src token lang' w = ((Some t, title p), w')
    /\ pages w' = pages w
    /\ unresolved_labels w' = unresolved_labels w
    /\ console w'
       = (if decide (find_label K lang' after = []) then console w
          else console w
               ++ [DErr ("multiple definitions of label @" +:+ K
                         +:+ " found")]).
Proof.
  intros K Hpages Hbefore Hp Hlang. unfold resolve_label. fold K.
  rewrite Hpages, find_label_app, (find_label_filtered K lang' before)
    by done.
  cbn [app]. unfold find_label at 1. cbn [flat_map].
  rewrite found_in_page_lookup, Hlang, Hp. cbn [app].
  fold (find_label K lang' after).
  destruct (find_label K lang' after) as [|hit others]; eexists;
    (split; [reflexivity|]); by rewrite <- ?Hpages.
Qed.

(** X9. The language constraint hides definitions: when every page that
    defines the key has a language different from the constraint, the
    label is reported as not found and recorded as unresolved. *)
Theorem resolve_label_other_language (w : World) (src : PageInfo)
    (token : string) (lang' : option string) :
  let K := qualify src token in
  (forall path p, (path, p) ∈ pages w ->
     labels p !! K = None \/ lang_mismatch (lang p) lang' = true) ->
  resolve_label src token lang' w
  = ((None, ""),
     {| pages := pages w;
        unresolved_labels := {[K]} ∪ unresolved_labels w;
        console := console w |}).
Proof.
  intros K H. unfold resolve_label. fold K.
  by rewrite find_label_filtered.
Qed.

(** ** Patching links (__main__.py) *)

Lemma M_bind_Ok {A B : Type} (m : M A) (k : A -> M B) (w w' : World) (a : A) :
  m w = Ok (a, w') -> (m ≫= k) w = k a w'.
Proof. intros H. unfold mbind, M_mbind. by rewrite H. Qed.

Lemma M_bind_Raise {A B : Type} (m : M A) (k : A -> M B) (w : World)
    (e : exn) :
  m w = Raise e -> (m ≫= k) w = Raise e.
Proof. intros H. unfold mbind, M_mbind. by rewrite H. Qed.

(** X10. A link whose target carries none of the prefixes ("=", "@") is
    left exactly as it is, and nothing else changes either. *)
Theorem patch_a_plain_link (p : PageInfo) (a : Element) (href : string)
    (w : World) :
  attrib a !! "href" = Some (AStr href) ->
  Str.startswith href "=" = false ->
  Str.startswith href "@" = false ->
  patch_a p a w = Ok ((attrib a, text a), w).
Proof.
  intros Hhref Heq Hat. unfold patch_a.
  rewrite (M_bind_Ok _ _ w w (Some href, None, None)).
  - cbn beta iota. unfold mret, M_ret. do 2 f_equal. f_equal.
    + by apply insert_id.
    + by destruct (text a).
  - rewrite Hhref. unfold replace_url. rewrite Heq, Hat.
    assert (Hcolon : Str.startswith href "=:" = false).
    { destruct href as [|c r]; [done|].
      change (Str.startswith (String c r) "=")
        with (Ascii.eqb "=" c && true) in Heq.
      change (Str.startswith (String c r) "=:")
        with (Ascii.eqb "=" c && Str.startswith r ":").
      apply andb_false_iff in Heq as [-> | ?]; done. }
    by rewrite Hcolon.
Qed.

Lemma patch_a_plain_link_witness :
  patch_a StaticRefs.intro
    (mkElement "a" {[ "href" := AStr "https://example.org/" ]}
               (Some "site") [])
    StaticRefs.world
  = Ok (({[ "href" := AStr "https://example.org/" ]}, Some "site"),
        StaticRefs.world).
Proof.
  exact (patch_a_plain_link StaticRefs.intro
           (mkElement "a" {[ "href" := AStr "https://example.org/" ]}
                      (Some "site") [])
           "https://example.org/" StaticRefs.world
           eq_refl eq_refl eq_refl).
Defined.

(** X11. A reference to a label that no page of a fitting language
    defines makes a broken link: the [href] attribute is removed, the
    class is set to "broken", the text stays, and the qualified key is
    added to the unresolved labels. *)
Theorem patch_a_broken_link (p : PageInfo) (a : Element) (token : string)
    (w : World) :
  attrib a !! "href" = Some (AStr ("@" +:+ token)) ->
  find_label (qualify p token) (lang p) (pages w) = [] ->
  exists att,
    patch_a p a w
    = Ok ((att, text a),
          {| pages := pages w;
             unresolved_labels := {[qualify p token]} ∪ unresolved_labels w;
             console := console w |})
    /\ att !! "href" = None
    /\ att !! "class" = Some (AStr "broken")
    /\ (forall k, k <> "href" -> k <> "class" -> att !! k = attrib a !! k).
Proof.
  intros Hhref Hnone.
  exists (<["class" := AStr "broken"]> (delete "href" (attrib a))).
  split; [|split; [|split]].
  - assert (Hr : replace_url p (Some (AStr ("@" +:+ token))) w
                 = Ok ((None, None, None),
                       {| pages := pages w;
                          unresolved_labels :=
                            {[qualify p token]} ∪ unresolved_labels w;
                          console := console w |})).
    { unfold replace_url.
      change (Str.startswith ("@" +:+ token) "=") with false.
      change (Str.startswith ("@" +:+ token) "=:") with false.
      change (Str.startswith ("@" +:+ token) "@") with true.
      cbv iota.
      change ("@" +:+ token) with (String "@" token).
      rewrite slice_from_1. unfold resolve_label. by rewrite Hnone. }
    unfold patch_a. rewrite Hhref, (M_bind_Ok _ _ _ _ _ Hr).
    reflexivity.
  - rewrite lookup_insert_ne by done. apply lookup_delete_eq.
  - apply lookup_insert_eq.
  - intros k H1 H2. rewrite lookup_insert_ne by done.
    by rewrite lookup_delete_ne.
Qed.

Lemma patch_a_broken_link_witness :
  exists att w',
    patch_a StaticRefs.intro
      (mkElement "a" {[ "href" := AStr "@nonexistent" ]}
                 (Some "@nonexistent") [])
      StaticRefs.world
    = Ok ((att, Some "@nonexistent"), w')
    /\ att !! "href" = None
    /\ ":nonexistent" ∈ unresolved_labels w'.
Proof.
  destruct (patch_a_broken_link StaticRefs.intro
              (mkElement "a" {[ "href" := AStr "@nonexistent" ]}
                         (Some "@nonexistent") [])
              "nonexistent" StaticRefs.world) as (att & Hr & Hh & _).
  - reflexivity.
  - reflexivity.
  - exists att. eexists. split; [exact Hr|]. split; [exact Hh|].
    vm_compute. reflexivity.
Defined.

(** X12. An [a] element that has no [href] attribute stops the pass:
    [replace_url] returns no URL for it and removing the absent attribute
    raises [KeyError]. *)
Theorem patch_a_without_href (p : PageInfo) (a : Element) (w : World) :
  attrib a !! "href" = None ->
  patch_a p a w = Raise (KeyError "href").
Proof. intros Hhref. unfold patch_a. by rewrite Hhref. Qed.

Lemma patch_a_without_href_witness :
  patch_static_urls StaticRefs.intro
    (mkElement "div" ∅ None
       [mkElement "a" {[ "name" := AStr "top" ]} None []])
    StaticRefs.world
  = Raise (KeyError "href").
Proof.
  unfold patch_static_urls.
  apply M_bind_Raise. cbn [for_descendants].
  apply M_bind_Raise. apply M_bind_Raise.
  change (String.eqb (tag (mkElement "a" {[ "name" := AStr "top" ]} None []))
            "a") with true. cbv iota.
  apply (patch_a_without_href StaticRefs.intro
           (mkElement "a" {[ "name" := AStr "top" ]} None [])
           StaticRefs.world).
  reflexivity.
Defined.

(** ** The end-of-run report (__main__.py) *)

(** X13. The report of [crossref_pages] prints nothing when no label is
    unresolved; otherwise it prints one error line followed by one line
    per unresolved label, each label once, in ascending order.  It
    changes nothing else. *)
Theorem report_unresolved_sorted (w : World) :
  exists (printed : list string) (w' : World),
    report_unresolved w = Ok (tt, w')
    /\ pages w' = pages w
    /\ unresolved_labels w' = unresolved_labels w
    /\ console w'
       = console w
         ++ (if decide (unresolved_labels w = ∅) then []
             else DErr "there were unresolved labels"
                  :: map (fun l => DPrint ("  @" +:+ l)) printed)
    /\ Sorted String.le printed
    /\ NoDup printed
    /\ (forall l, l ∈ printed <-> l ∈ unresolved_labels w).
Proof.
  exists (merge_sort String.le (elements (unresolved_labels w))).
  assert (Hperm := merge_sort_Permutation String.le
                     (elements (unresolved_labels w))).
  unfold report_unresolved.
  destruct (decide (unresolved_labels w = ∅)) as [Hempty|Hne].
  - rewrite Hempty, size_empty. cbn [Nat.eqb negb].
    exists w. rewrite app_nil_r, <- Hempty.
    repeat split; try done.
    + apply Sorted_merge_sort. apply _.
    + rewrite Hperm. apply NoDup_elements.
    + rewrite Hperm. apply elem_of_elements.
    + rewrite Hperm. apply elem_of_elements.
  - assert (Hsize : Nat.eqb (size (unresolved_labels w)) 0 = false).
    { apply Nat.eqb_neq. intros H0. apply Hne.
      by apply leibniz_equiv, size_empty_inv. }
    rewrite Hsize. cbn [negb]. eexists. repeat split; try done.
    + apply Sorted_merge_sort. apply _.
    + rewrite Hperm. apply NoDup_elements.
    + rewrite Hperm. apply elem_of_elements.
    + rewrite Hperm. apply elem_of_elements.
Qed.

(** ** What the patching pass leaves alone (__main__.py) *)

Lemma M_bind_inv {A B : Type} (m : M A) (k : A -> M B) (w w' : World)
    (b : B) :
  (m ≫= k) w = Ok (b, w') ->
  exists a w1, m w = Ok (a, w1) /\ k a w1 = Ok (b, w').
Proof.
  unfold mbind, M_mbind. destruct (m w) as [[a w1]|e]; [|done].
  intros H. by exists a, w1.
Qed.

Lemma keeps_pages_ret {A : Type} (a : A) : keeps_pages (mret a).
Proof. intros w a' w' H. unfold mret, M_ret in H. by injection H as _ <-. Qed.

Lemma keeps_pages_bind {A B : Type} (m : M A) (k : A -> M B) :
  keeps_pages m -> (forall a, keeps_pages (k a)) -> keeps_pages (m ≫= k).
Proof.
  intros Hm Hk w b w' (a & w1 & H1 & H2)%M_bind_inv.
  rewrite (Hk a w1 b w' H2). by apply (Hm w a).
Qed.

Lemma keeps_pages_lift {A : Type} (r : res A) : keeps_pages (lift r).
Proof.
  intros w a w' H. unfold lift in H. destruct r; [|done].
  by injection H as _ <-.
Qed.

Lemma keeps_pages_raise {A : Type} (e : exn) : keeps_pages (raise (A := A) e).
Proof. by intros w a w' H. Qed.

Lemma keeps_pages_replace_url (p : PageInfo) (url : option AttrVal) :
  keeps_pages (replace_url p url).
Proof.
  unfold replace_url. destruct url as [[url|t]|].
  - destruct (Str.startswith url "=").
    { apply keeps_pages_bind; [apply keeps_pages_lift|]. intros target.
      apply keeps_pages_bind; [apply keeps_pages_lift|]. intros r.
      apply keeps_pages_ret. }
    destruct (Str.startswith url "=:"); [apply keeps_pages_raise|].
    destruct (Str.startswith url "@"); [|apply keeps_pages_ret].
    intros w a w' H.
    pose proof (resolve_label_pages p (Str.slice_from url 1) (lang p) w)
      as Hpages.
    destruct (resolve_label p (Str.slice_from url 1) (lang p) w)
      as [[target ttl] w1].
    simpl in Hpages. destruct target as [t|].
    + destruct (relpath p t); [|done]. simpl in H. by injection H as _ <-.
    + by injection H as _ <-.
  - apply keeps_pages_raise.
  - apply keeps_pages_ret.
Qed.

Lemma keeps_pages_patch_a (p : PageInfo) (a : Element) :
  keeps_pages (patch_a p a).
Proof.
  unfold patch_a. apply keeps_pages_bind; [apply keeps_pages_replace_url|].
  intros [[[u|] old_text] new_text].
  - apply keeps_pages_ret.
  - destruct (attrib a !! "href");
      [apply keeps_pages_ret|apply keeps_pages_raise].
Qed.

Lemma keeps_pages_patch_img (p : PageInfo) (img : Element) :
  keeps_pages (patch_img p img).
Proof.
  unfold patch_img. apply keeps_pages_bind; [apply keeps_pages_replace_url|].
  intros t. apply keeps_pages_ret.
Qed.

(** What a loop over the descendants with tag [tg] returns, whatever its
    body: the same tree but for the attributes and text of those
    descendants; and the page set is kept if the body keeps it. *)
Lemma for_descendants_frame (tg : string)
    (body : Element -> M (gmap string AttrVal * option string))
    (e : Element) :
  (forall w e' w',
     for_descendants tg body e w = Ok (e', w') ->
     blank_below (is_tag tg) e' = blank_below (is_tag tg) e)
  /\ ((forall c, keeps_pages (body c)) ->
      keeps_pages (for_descendants tg body e)).
Proof.
  induction e as [etag eatt etxt kids IH] using Element_tree_ind.
  cbn [for_descendants].
  set (go := fix go (kids : list Element) : M (list Element) :=
         match kids with
         | [] => mret []
         | c :: rest =>
             '(att, txt) ← (if String.eqb (tag c) tg then body c
                            else mret (attrib c, text c));
             c' ← for_descendants tg body c;
             rest' ← go rest;
             mret (mkElement (tag c) att txt (children c') :: rest')
         end).
  set (wipe := fun c : Element =>
         let c' := blank_below (is_tag tg) c in
         if is_tag tg (tag c) then mkElement (tag c') ∅ None (children c')
         else c').
  assert (Hgo : (forall w ks w', go kids w = Ok (ks, w') ->
                                 map wipe ks = map wipe kids)
                /\ ((forall c, keeps_pages (body c)) -> keeps_pages (go kids))).
  { induction IH as [|c rest [Hc1 Hc2] _ [IH1 IH2]]; cbn [go].
    - split; [|intros _; apply keeps_pages_ret].
      intros w ks w' H. unfold mret, M_ret in H. by injection H as <- _.
    - split.
      + intros w ks w' H.
        apply M_bind_inv in H as ([att txt] & w1 & Hb & H).
        apply M_bind_inv in H as (c' & w2 & Hrec & H).
        apply M_bind_inv in H as (rest' & w3 & Hrest & H).
        unfold mret, M_ret in H. injection H as <- _.
        cbn [map]. f_equal; [|by apply (IH1 w2 rest' w3)].
        apply Hc1 in Hrec. destruct c as [ctag catt ctxt ckids].
        destruct c' as [ctag' catt' ctxt' ckids'].
        cbn [blank_below] in Hrec. injection Hrec as -> -> -> Hkids.
        unfold wipe. cbn [blank_below tag children].
        destruct (is_tag tg ctag) eqn:Htag; cbn [tag children].
        * by rewrite Hkids.
        * unfold is_tag in Htag. cbn [tag] in Hb. rewrite Htag in Hb.
          unfold mret, M_ret in Hb. injection Hb as <- <- _.
          by rewrite Hkids.
      + intros Hbody.
        apply keeps_pages_bind.
        { destruct (String.eqb (tag c) tg);
            [apply Hbody|apply keeps_pages_ret]. }
        intros [att txt]. apply keeps_pages_bind; [by apply Hc2|].
        intros c'. apply keeps_pages_bind; [by apply IH2|].
        intros rest'. apply keeps_pages_ret. }
  destruct Hgo as [Hgo1 Hgo2]. split.
  - intros w e' w' H.
    apply M_bind_inv in H as (ks & w1 & Hks & H).
    unfold mret, M_ret in H. injection H as <- _.
    cbn [blank_below]. f_equal. by apply (Hgo1 w ks w1).
  - intros Hbody. apply keeps_pages_bind; [by apply Hgo2|].
    intros ks. apply keeps_pages_ret.
Qed.

Lemma blank_below_absorb (hit hit' : string -> bool) (e : Element) :
  (forall t, hit t = true -> hit' t = true) ->
  blank_below hit' (blank_below hit e) = blank_below hit' e.
Proof.
  intros Hsub.
  induction e as [tg att txt kids IH] using Element_tree_ind.
  cbn [blank_below]. f_equal. rewrite map_map.
  induction IH as [|c rest Hc _ IHrest]; [done|].
  cbn [map]. f_equal; [|exact IHrest]. clear IHrest.
  destruct c as [ctag catt ctxt ckids].
  cbn [blank_below] in Hc. injection Hc as Hk.
  cbn [blank_below tag children].
  destruct (hit ctag) eqn:Hh.
  - rewrite (Hsub ctag Hh). cbn [blank_below tag children].
    rewrite (Hsub ctag Hh). cbn [tag children]. by rewrite Hk.
  - cbn [blank_below tag children].
    destruct (hit' ctag); cbn [tag children]; by rewrite Hk.
Qed.

Lemma shape_blank_below (hit : string -> bool) (e : Element) :
  shape (blank_below hit e) = shape e.
Proof.
  induction e as [tg att txt kids IH] using Element_tree_ind.
  cbn [blank_below shape]. f_equal. rewrite map_map.
  induction IH as [|c rest Hc _ IHrest]; [done|].
  cbn [map]. f_equal; [|exact IHrest].
  destruct c as [ctag catt ctxt ckids]. cbn [blank_below shape] in *.
  cbn [tag children]. by destruct (hit ctag).
Qed.

Lemma keeps_pages_patch_static_urls (p : PageInfo) (t : Element) :
  keeps_pages (patch_static_urls p t).
Proof.
  unfold patch_static_urls. apply keeps_pages_bind.
  - apply for_descendants_frame. intros c. apply keeps_pages_patch_a.
  - intros t1. apply for_descendants_frame. intros c.
    apply keeps_pages_patch_img.
Qed.

(** X14. Whatever [patch_static_urls] returns is the tree it was given
    but for the attributes and the text of the [a] and [img] elements
    below the root: no element is added, removed, moved or renamed, every
    other element and the root itself are untouched, and no page of the
    page set is modified. *)
Theorem patch_static_urls_frame (p : PageInfo) (t t' : Element)
    (w w' : World) :
  patch_static_urls p t w = Ok (t', w') ->
  blank_below is_a_or_img t' = blank_below is_a_or_img t
  /\ shape t' = shape t
  /\ pages w' = pages w.
Proof.
  intros Hrun.
  assert (Hblank : blank_below is_a_or_img t' = blank_below is_a_or_img t).
  { unfold patch_static_urls in Hrun.
    apply M_bind_inv in Hrun as (t1 & w1 & H1 & H2).
    apply (proj1 (for_descendants_frame _ _ _)) in H1, H2.
    rewrite <- (blank_below_absorb (is_tag "img") is_a_or_img t'), H2.
    - rewrite (blank_below_absorb (is_tag "img") is_a_or_img t1).
      + rewrite <- (blank_below_absorb (is_tag "a") is_a_or_img t1), H1.
        * apply blank_below_absorb.
          unfold is_tag, is_a_or_img. by intros x ->.
        * unfold is_tag, is_a_or_img. by intros x ->.
      + unfold is_tag, is_a_or_img. intros x ->. apply orb_true_r.
    - unfold is_tag, is_a_or_img. intros x ->. apply orb_true_r. }
  split; [done|]. split.
  - by rewrite <- (shape_blank_below is_a_or_img t'), Hblank,
         shape_blank_below.
  - by apply (keeps_pages_patch_static_urls p t w t').
Qed.

Lemma patch_static_urls_frame_witness :
  exists t' w',
    patch_static_urls Parsed.intro Parsed.tree Parsed.world = Ok (t', w')
    /\ shape t' = shape Parsed.tree
    /\ pages w' = pages Parsed.world.
Proof.
  eexists _, _. split; [vm_compute; reflexivity|].
  eapply (fun H => proj2 (patch_static_urls_frame Parsed.intro Parsed.tree
                            _ Parsed.world _ H)).
  vm_compute. reflexivity.
Defined.

(** ** The patching pass over the page set (__main__.py) *)

Lemma dict_get_set {V : Type} (d : list (string * V)) (k : string) (v : V) :
  dict_get (dict_set d k v) k = Some v.
Proof.
  induction d as [|[k' v'] d IH]; cbn [dict_set dict_get].
  - by rewrite String.eqb_refl.
  - destruct (String.eqb k' k) eqn:Hk; cbn [dict_get].
    + by rewrite String.eqb_refl.
    + by rewrite Hk.
Qed.

Lemma page_cores_set (d : list (string * PageInfo)) (k : string)
    (p p' : PageInfo) :
  dict_get d k = Some p -> page_core p' = page_core p ->
  page_cores (dict_set d k p') = page_cores d.
Proof.
  intros Hget Hcore. induction d as [|[k' v'] d IH]; [done|].
  cbn [dict_set dict_get] in *.
  destruct (String.eqb_spec k' k) as [->|Hne].
  - injection Hget as ->. unfold page_cores. cbn [map fst snd].
    by rewrite Hcore.
  - unfold page_cores in *. cbn [map]. by rewrite IH.
Qed.

Lemma keeps_pages_patch_fragments (p : PageInfo)
    (frags : list (string * Element)) :
  keeps_pages (patch_fragments p frags).
Proof.
  induction frags as [|[name frag] rest IH]; cbn [patch_fragments].
  - apply keeps_pages_ret.
  - apply keeps_pages_bind; [apply keeps_pages_patch_static_urls|].
    intros frag'. apply keeps_pages_bind; [exact IH|].
    intros rest'. apply keeps_pages_ret.
Qed.

Lemma crossref_page_cores (path : string) (w w' : World) :
  crossref_page path w = Ok (tt, w') ->
  page_cores (pages w') = page_cores (pages w).
Proof.
  unfold crossref_page. intros H.
  apply M_bind_inv in H as (p & w1 & Hget & H).
  unfold get_page in Hget.
  destruct (dict_get (pages w) path) as [p0|] eqn:Hp; [|done].
  injection Hget as -> ->. cbv zeta in H.
  apply M_bind_inv in H as (static & w2 & Hst & H).
  apply keeps_pages_lift in Hst.
  apply M_bind_inv in H as ([] & w3 & Hput & H).
  unfold put_page in Hput. injection Hput as <-.
  apply M_bind_inv in H as (tree' & w4 & Htree & H).
  apply M_bind_inv in H as (frags' & w5 & Hfrags & H).
  unfold put_page in H. injection H as <-. cbn [pages].
  assert (H4 : pages w4 = dict_set (pages w2) path
                            (set_local_static p static)).
  { destruct (tree (set_local_static p static)) as [t|]; [|done].
    by apply keeps_pages_patch_static_urls in Htree. }
  assert (H5 : pages w5 = pages w4).
  { destruct (fragments (set_local_static p static)) as [fs|]; [|done].
    by apply keeps_pages_patch_fragments in Hfrags. }
  rewrite H5, H4, Hst.
  rewrite (page_cores_set _ path (set_local_static p static));
    [|apply dict_get_set|done].
  by apply (page_cores_set _ path p).
Qed.

Lemma crossref_loop_cores (paths : list string) (w w' : World) :
  crossref_loop paths w = Ok (tt, w') ->
  page_cores (pages w') = page_cores (pages w).
Proof.
  revert w. induction paths as [|path rest IH]; intros w H;
    cbn [crossref_loop] in H.
  - unfold mret, M_ret in H. by injection H as <-.
  - apply M_bind_inv in H as ([] & w1 & H1 & H2).
    rewrite (IH w1 H2). by apply (crossref_page_cores path).
Qed.

(** X15. [crossref_pages] keeps the page set in place: when it returns,
    the pages are the same keys in the same order, and every page has the
    bundle, id, language, URL override, template, title, label namespace
    and labels it had before; only trees, fragments and the local static
    URL are rewritten. *)
Theorem crossref_pages_keeps_pages (w w' : World) :
  crossref_pages w = Ok (tt, w') ->
  page_cores (pages w') = page_cores (pages w).
Proof.
  unfold crossref_pages. intros H.
  apply M_bind_inv in H as ([] & w1 & Hloop & Hrep).
  apply crossref_loop_cores in Hloop. rewrite <- Hloop.
  unfold report_unresolved in Hrep.
  destruct (negb _); by injection Hrep as <-.
Qed.

Lemma crossref_pages_keeps_pages_witness :
  exists w',
    crossref_pages Parsed.world = Ok (tt, w')
    /\ page_cores (pages w') = page_cores (pages Parsed.world).
Proof.
  eexists. split; [vm_compute; reflexivity|].
  apply (crossref_pages_keeps_pages Parsed.world). vm_compute. reflexivity.
Defined.

(** ** Output paths and URL overrides (pageinfo.py) *)

Lemma drop_app_more (s t : string) (k : nat) :
  Str.drop (String.length s + k) (s +:+ t) = Str.drop k t.
Proof.
  induction s as [|a s IH]; [by rewrite str_app_nil_l|].
  by rewrite str_app_cons.
Qed.

Lemma endswith_app_suffix (s t suf : string) :
  Str.len suf <= Str.len t ->
  Str.endswith (s +:+ t) suf = Str.endswith t suf.
Proof.
  intros Hlen. unfold Str.endswith.
  pose proof (len_nonneg s). pose proof (len_nonneg suf).
  rewrite len_app.
  destruct (Z.leb_spec (Str.len suf) (Str.len s + Str.len t)); [|lia].
  destruct (Z.leb_spec (Str.len suf) (Str.len t)); [|lia].
  cbn [andb]. f_equal. unfold Str.slice_from.
  rewrite !bound_inside by (rewrite ?len_app; lia).
  replace (Z.to_nat (Str.len s + Str.len t - Str.len suf))
    with (String.length s + Z.to_nat (Str.len t - Str.len suf))%nat
    by (unfold Str.len in *; lia).
  apply drop_app_more.
Qed.





(** X17. A page whose id is empty or ends with a slash cannot be written:
    with the suffix forced, [_url_components] gives it the suffix
    "index.hml", so the URL does not end in ".html" and the assertion of
    [output_path] fails. *)
Theorem output_path_directory_id (p : PageInfo) (l : string)
    (languages : yaml) :
  url_override p = None ->
  PageInfo_config p "languages" (YBool false) = Ok languages ->
  (truthy languages = true -> lang p = Some l) ->
  Str.endswith ("/" +:+ id p) "/" = true ->
  output_path p = Raise AssertionError.
Proof.
  intros Hov Hlangs Hlang Hend. unfold output_path.
  rewrite Hov. unfold _default_url, _url_components, wants_suffix.
  rewrite Hlangs, res_bind_Ok, Hend.
  assert (Hmk : forall pre,
             (pre = "" \/ pre = "/" +:+ l) ->
             mkUrl (Str.times pre 1 +:+ ("/" +:+ id p)
                    +:+ Str.times "index.hml" 1)
             = Ok (UnsafeUrl (pre +:+ ("/" +:+ id p) +:+ "index.hml"))).
  { intros pre Hpre. unfold Str.times. rewrite !str_app_nil_r. unfold mkUrl.
    rewrite (assertValid_ok _ "l"); [done| |by rewrite !last_char_app|done].
    by destruct Hpre as [-> | ->]. }
  assert (Hfail : forall pre,
             (pre = "" \/ pre = "/" +:+ l) ->
             (mkUrl (Str.times pre 1 +:+ ("/" +:+ id p)
                     +:+ Str.times "index.hml" 1)
              ≫= fun u =>
                 let s := _path u in
                 if negb (Str.startswith s "/") then Raise AssertionError
                 else if negb (Str.endswith s ".html")
                 then Raise AssertionError
                 else
                   folder ← PageInfo_config p "outputs.folder" (YStr "_www");
                   match folder with
                   | YStr f => Ok (os_path.join f [Str.slice_from s 1])
                   | _ => Raise TypeError
                   end)
             = Raise AssertionError).
  { intros pre Hpre. rewrite (Hmk pre Hpre), res_bind_Ok. cbn [_path].
    assert (Hs : Str.startswith (pre +:+ ("/" +:+ id p) +:+ "index.hml") "/"
                 = true) by (by destruct Hpre as [-> | ->]).
    rewrite Hs. cbn [negb].
    rewrite <- str_app_assoc, endswith_app_suffix by (vm_compute; congruence).
    done. }
  destruct (truthy languages) eqn:Htl.
  - rewrite (Hlang eq_refl), !res_bind_Ok.
    cbv beta iota zeta delta [negb]. apply Hfail. by right.
  - rewrite !res_bind_Ok.
    cbv beta iota zeta delta [negb]. apply Hfail. by left.
Qed.

Lemma output_path_directory_id_witness :
  output_path (PageInfo_new SingleLanguage.site "docs/" (Some "fr"))
  = Raise AssertionError.
Proof.
  exact (output_path_directory_id
           (PageInfo_new SingleLanguage.site "docs/" (Some "fr")) "fr"
           (YDict [("en", YStr "English")])
           eq_refl eq_refl (fun _ => eq_refl) eq_refl).
Defined.



(** ** The metadata pass (collect.py) *)






(** ** Template references (__main__.py) *)

(** X20. The [ref] function handed to templates and the rewriting of a
    link in the text treat a label reference alike: on "@" + token they
    return the same relative URL (or both none), leave the same state,
    and fail alike. *)
Theorem ref_agrees_with_replace_url (p : PageInfo) (token : string)
    (w : World) :
  match replace_url p (Some (AStr ("@" +:+ token))) w,
        ref p ("@" +:+ token) w with
  | Ok ((new_url, _, _), w1), Ok (rp, w2) => new_url = rp /\ w1 = w2
  | Raise e1, Raise e2 => e1 = e2
  | _, _ => False
  end.
Proof.
  unfold replace_url, ref.
  change (Str.startswith ("@" +:+ token) "=") with false.
  change (Str.startswith ("@" +:+ token) "=:") with false.
  change (Str.startswith ("@" +:+ token) "@") with true.
  cbv iota. cbn [negb].
  change ("@" +:+ token) with (String "@" token). rewrite slice_from_1.
  destruct (resolve_label p token (lang p) w) as [[[t|] ttl] w1]; [|done].
  by destruct (relpath p t).
Qed.

(** ** Discovery: ids and languages from file names (collect.py) *)



Lemma res_bind_inv {A B : Type} (m : res A) (k : A -> res B) (b : B) :
  (m ≫= k) = Ok b -> exists a, m = Ok a /\ k a = Ok b.
Proof. destruct m as [a|e]; [|done]. intros H. by exists a. Qed.






(** ** Rewritten references lead where they should *)

Lemma normalised_of_segs (segs : list string) :
  Forall seg_ok segs -> normalised (path_of segs) = true.
Proof.
  intros Hall. unfold normalised.
  change (Str.startswith (path_of segs) "/") with true.
  rewrite components_path_of by done. cbn [andb].
  apply forallb_forall. intros seg Hin.
  rewrite Forall_forall in Hall. by apply Hall, list_elem_of_In.
Qed.

Lemma relpath_resolves (A B : string) :
  normalised A = true -> normalised B = true ->
  exists r, _relpath (UnsafeUrl B) A = Ok r /\ url_resolve B r = A.
Proof.
  intros [HA EA]%normalised_path_of [HB EB]%normalised_path_of.
  rewrite EA, EB. eexists. split.
  - by apply relpath_components.
  - by apply resolve_components.
Qed.

(** Joining a normalised relative path onto a normalised URL. *)
Lemma Url_div_normalised (u : Url) (asset : string) :
  normalised (_path u) = true ->
  normalised ("/" +:+ asset) = true ->
  asset <> "" ->
  let joined := if String.eqb (_path u) "/" then "/" +:+ asset
                else _path u +:+ "/" +:+ asset in
  Url_div u asset = Ok (UnsafeUrl joined) /\ normalised joined = true.
Proof.
  intros [Hu Eu]%normalised_path_of [Ha Ea]%normalised_path_of Hne joined.
  set (us := components (_path u)) in *.
  set (tgt := components ("/" +:+ asset)) in *.
  assert (Easset : asset = Str.join "/" tgt).
  { unfold path_of in Ea. by injection Ea. }
  assert (Htgt : tgt <> []).
  { intros Hnil. rewrite Hnil in Easset. done. }
  assert (Hjoined : joined = path_of (us ++ tgt)).
  { unfold joined. rewrite Eu. destruct us as [|u0 us'].
    - by rewrite Easset.
    - rewrite path_of_not_root by done. unfold path_of.
      rewrite join_app2, Easset by done. by rewrite !str_app_assoc. }
  assert (Hall : Forall seg_ok (us ++ tgt)) by (by apply Forall_app).
  split; [|rewrite Hjoined; by apply normalised_of_segs].
  unfold Url_div, os_path.join. cbn [fold_left]. unfold os_path.join2.
  assert (Hrel : Str.startswith asset "/" = false).
  { rewrite Easset. by apply join_not_absolute. }
  rewrite Hrel.
  assert (Hmk : mkUrl joined = Ok (UnsafeUrl joined)).
  { unfold mkUrl. rewrite Hjoined, valid_path_of by done. done. }
  unfold joined in Hmk |- *. rewrite Eu in Hmk |- *.
  destruct us as [|u0 us'].
  - exact Hmk.
  - rewrite path_of_not_root in Hmk |- * by done.
    assert (Hnonempty : String.eqb (path_of (u0 :: us')) "" = false) by done.
    rewrite Hnonempty. cbn [orb].
    destruct (join_last (u0 :: us')) as (c & Hc & Hcs); [done|done|].
    assert (Hend : Str.endswith (path_of (u0 :: us')) "/" = false).
    { rewrite endswith_char. unfold path_of. rewrite last_char_app, Hc.
      by apply Ascii.eqb_neq. }
    by rewrite Hend.
Qed.

(** X23. A page-local static reference leads to the asset: when the
    page's URL and its local static URL are normalised and the remainder
    after "=" is a normalised relative path, the reference is rewritten to
    a relative URL that a browser, starting from the page's URL, resolves
    to the local static URL followed by the remainder. *)
Theorem local_static_reference_resolves (p : PageInfo) (U : Url)
    (asset : string) (w : World) :
  url p = Ok U ->
  normalised (_path U) = true ->
  normalised (_path (local_static p)) = true ->
  normalised ("/" +:+ asset) = true ->
  asset <> "" ->
  exists r,
    replace_url p (Some (AStr ("=" +:+ asset))) w
    = Ok ((Some r, None, None), w)
    /\ url_resolve (_path U) r
       = (if String.eqb (_path (local_static p)) "/" then "/" +:+ asset
          else _path (local_static p) +:+ "/" +:+ asset).
Proof.
  intros Hurl HU Hls Hasset Hne.
  destruct (Url_div_normalised (local_static p) asset Hls Hasset Hne)
    as [Hdiv Hnorm].
  set (joined := if String.eqb (_path (local_static p)) "/"
                 then "/" +:+ asset
                 else _path (local_static p) +:+ "/" +:+ asset) in *.
  destruct (relpath_resolves joined (_path U) Hnorm HU) as (r & Hr & Hres).
  exists r. split; [|done].
  unfold replace_url.
  change (Str.startswith ("=" +:+ asset) "=") with true. cbv iota.
  change ("=" +:+ asset) with (String "=" asset). rewrite slice_from_1.
  unfold localStaticUrl. rewrite Hdiv.
  unfold mbind, M_mbind, lift, relpath, Url_mod.
  rewrite Hurl, res_bind_Ok. cbn [_path]. destruct U as [Upath].
  cbn [_path] in Hr. by rewrite Hr.
Qed.

Lemma local_static_reference_resolves_witness :
  exists r,
    replace_url StaticRefs.intro (Some (AStr "=img/diagram.png"))
      StaticRefs.world
    = Ok ((Some r, None, None), StaticRefs.world)
    /\ url_resolve "/guide/intro.html" r = "/static/guide/img/diagram.png".
Proof.
  exact (local_static_reference_resolves StaticRefs.intro
           (UnsafeUrl "/guide/intro.html") "img/diagram.png"
           StaticRefs.world eq_refl eq_refl eq_refl eq_refl
           ltac:(discriminate)).
Defined.

(** X24. A resolved label reference leads to the defining page: when the
    referring page's URL and the label's target are normalised, the link
    "@" + token is rewritten to a relative URL that a browser, starting
    from the referring page, resolves to the target; the old text to
    compare with is the reference itself and the new text the defining
    page's title. *)
Theorem label_reference_resolves (p : PageInfo) (U t : Url)
    (token p_title : string) (others : list (Url * string)) (w : World) :
  url p = Ok U ->
  normalised (_path U) = true ->
  find_label (qualify p token) (lang p) (pages w)
  = (t, p_title) :: others ->
  normalised (_path t) = true ->
  exists r w',
    replace_url p (Some (AStr ("@" +:+ token))) w
    = Ok ((Some r, Some ("@" +:+ token), Some p_title), w')
    /\ url_resolve (_path U) r = _path t
    /\ pages w' = pages w
    /\ unresolved_labels w' = unresolved_labels w.
Proof.
  intros Hurl HU Hfound Ht.
  destruct (relpath_resolves (_path t) (_path U) Ht HU) as (r & Hr & Hres).
  exists r. eexists. split; [|split; [exact Hres|]].
  - unfold replace_url.
    change (Str.startswith ("@" +:+ token) "=") with false.
    change (Str.startswith ("@" +:+ token) "=:") with false.
    change (Str.startswith ("@" +:+ token) "@") with true. cbv iota.
    change ("@" +:+ token) with (String "@" token). rewrite slice_from_1.
    unfold resolve_label. rewrite Hfound. cbn [fst snd].
    unfold relpath, Url_mod. rewrite Hurl, res_bind_Ok.
    destruct U as [Upath]. cbn [_path] in *. rewrite Hr, res_bind_Ok.
    reflexivity.
  - by destruct others.
Qed.

Lemma label_reference_resolves_witness :
  exists r w',
    replace_url LabelDemo.about (Some (AStr "@home")) LabelDemo.world
    = Ok ((Some r, Some "@home", Some ""), w')
    /\ url_resolve "/about" r = "/index".
Proof.
  destruct (label_reference_resolves LabelDemo.about (UnsafeUrl "/about")
              (UnsafeUrl "/index") "home" "" [] LabelDemo.world
              eq_refl eq_refl eq_refl eq_refl)
    as (r & w' & H1 & H2 & _).
  exists r, w'. split; [exact H1 | exact H2].
Defined.

(** ** Witnesses for the label properties *)

Lemma absolute_reference_found_witness :
  qualify LabelDemo.about ":home" = ":home"
  /\ exists target p_title w',
       resolve_label LabelDemo.about ":home" (Some "en") LabelDemo.world
       = ((Some target, p_title), w').
Proof.
  destruct (absolute_reference_found LabelDemo.site LabelDemo.home
              LabelDemo.home_labelled LabelDemo.about "home"
              (UnsafeUrl "/index") [] [] LabelDemo.world "index.md"
              (Some "en"))
    as (Hq & _ & target & p_title & w' & Hr & _).
  - reflexivity.
  - reflexivity.
  - reflexivity.
  - right. left.
  - reflexivity.
  - split; [exact Hq|]. exists target, p_title, w'. exact Hr.
Defined.

Lemma resolve_label_first_wins_witness :
  exists w',
    resolve_label LabelDemo.about "home" (Some "en") LabelClash.world
    = ((Some (UnsafeUrl "/index"), "First"), w')
    /\ console w'
       = [DErr "multiple definitions of label @:home found"].
Proof.
  destruct (resolve_label_first_wins LabelClash.world LabelDemo.about "home"
              (Some "en") [("about.md", LabelDemo.about)]
              [("other.md", LabelClash.second)] "index.md" LabelClash.first
              (UnsafeUrl "/index"))
    as (w' & Hr & _ & _ & Hc).
  - reflexivity.
  - intros path' q Hin. apply list_elem_of_singleton in Hin.
    injection Hin as _ ->. by left.
  - reflexivity.
  - reflexivity.
  - exists w'. split; [exact Hr | exact Hc].
Defined.

Lemma resolve_label_other_language_witness :
  fst (resolve_label LabelDemo.about "accueil" (Some "en")
         LabelClash.french_world)
  = (None, "").
Proof.
  rewrite (resolve_label_other_language LabelClash.french_world
             LabelDemo.about "accueil" (Some "en")); [reflexivity|].
  intros path p Hin.
  apply elem_of_cons in Hin as [Hin|Hin]; [injection Hin as _ ->; by left|].
  apply list_elem_of_singleton in Hin. injection Hin as _ ->. by right.
Defined.

(** ** The page dictionary of a bundle (collect.py) *)






(** ** Labels declared in metadata (collect.py) *)

Lemma url_set_labels (p : PageInfo) (l : gmap string Url) :
  url (set_labels p l) = url p.
Proof. reflexivity. Qed.

Lemma add_file_labels_bound (p p' : PageInfo) (fileLabels : list string)
    (out out' : Console) (U : Url) :
  url p = Ok U ->
  add_file_labels p fileLabels out = Ok (p', out') ->
  label_namespace p' = label_namespace p
  /\ (forall k, labels p !! k = Some U -> labels p' !! k = Some U)
  /\ (forall l, l ∈ fileLabels ->
        labels p' !! (label_namespace p +:+ ":" +:+ Str.slice_from l 1)
        = Some U).
Proof.
  revert p out. induction fileLabels as [|l rest IH]; intros p out Hurl H;
    cbn [add_file_labels] in H.
  - injection H as <- <-. split; [done|]. split; [done|].
    intros l Hin. by apply elem_of_nil in Hin.
  - rewrite Hurl, res_bind_Ok in H.
    apply res_bind_inv in H as ([p1 out1] & Hadd & H).
    unfold add_label in Hadd.
    destruct (Str.startswith (Str.slice_from l 1) "@"); [done|].
    injection Hadd as <- <-.
    apply IH in H as (Hns & Hkeep & Hnew); [|by rewrite url_set_labels].
    cbn [label_namespace labels set_labels] in *.
    split; [done|]. split.
    + intros k Hk. apply Hkeep.
      destruct (decide (label_namespace p +:+ ":" +:+ Str.slice_from l 1 = k))
        as [<-|Hne]; [apply lookup_insert_eq|by rewrite lookup_insert_ne].
    + intros l' [-> | Hin]%elem_of_cons; [|by apply Hnew].
      apply Hkeep, lookup_insert_eq.
Qed.

(** X26. Labels point at the page that declares them: when the loop over
    the labels of a file's metadata returns, every one of them (without
    its "@") is bound, under the page's namespace, to the URL the page
    had when the loop started; the namespace is unchanged. *)
Theorem add_file_labels_targets (p p' : PageInfo)
    (fileLabels : list string) (out out' : Console) (U : Url) :
  url p = Ok U ->
  add_file_labels p fileLabels out = Ok (p', out') ->
  label_namespace p' = label_namespace p
  /\ url p' = Ok U
  /\ (forall l, l ∈ fileLabels ->
        labels p' !! (label_namespace p +:+ ":" +:+ Str.slice_from l 1)
        = Some U).
Proof.
  intros Hurl H.
  destruct (add_file_labels_bound p p' fileLabels out out' U Hurl H)
    as (Hns & _ & Hnew).
  split; [done|]. split; [|done].
  clear Hns Hnew. revert p out Hurl H.
  induction fileLabels as [|l rest IH]; intros p out Hurl H;
    cbn [add_file_labels] in H.
  - by injection H as <- _.
  - rewrite Hurl, res_bind_Ok in H.
    apply res_bind_inv in H as ([p1 out1] & Hadd & H).
    unfold add_label in Hadd.
    destruct (Str.startswith (Str.slice_from l 1) "@"); [done|].
    injection Hadd as <- <-. by apply (IH _ _ (eq_trans (url_set_labels _ _) Hurl)) in H.
Qed.

Lemma add_file_labels_targets_witness :
  exists p',
    add_file_labels SingleLanguage.index ["@home"; "@start"] []
    = Ok (p', [])
    /\ labels p' !! ":home" = Some (UnsafeUrl "/en/index.html")
    /\ labels p' !! ":start" = Some (UnsafeUrl "/en/index.html").
Proof.
  edestruct (add_file_labels_targets SingleLanguage.index)
    with (fileLabels := ["@home"; "@start"]) (out := @nil Diag)
         (out' := @nil Diag) (U := UnsafeUrl "/en/index.html")
    as (_ & _ & H); [reflexivity|vm_compute; reflexivity|].
  eexists. split; [vm_compute; reflexivity|].
  split.
  - apply (H "@home"). left.
  - apply (H "@start"). right. left.
Defined.

(** ** Edges of the metadata loop and of configuration lookup *)

(** X27. Metadata the loop does not use is skipped with a warning and
    changes nothing: that holds for every key other than [label] given
    any number of values but one (so also for a [title], [url], [lang] or
    [template] given twice or with no value).  A [label] value that does
    not start with "@" fails the assertion. *)
Theorem apply_meta_edges (path key : string) (value : list string)
    (p : PageInfo) (fileLabels : list string) (out : Console) :
  (key <> "label" -> length value <> 1%nat ->
   apply_meta path (p, fileLabels, out) (key, value)
   = Ok (p, fileLabels,
         out ++ [DWarn (path +:+ ": unknown metadata '" +:+ key
                        +:+ "' of length " +:+ pretty (length value))]))
  /\ (forallb (fun v => Str.startswith v "@") value = false ->
      apply_meta path (p, fileLabels, out) ("label", value)
      = Raise AssertionError).
Proof.
  split.
  - intros Hkey Hlen. apply String.eqb_neq in Hkey.
    unfold apply_meta. destruct value as [|v [|v' rest]]; [|done|];
      by rewrite Hkey.
  - intros Hbad. unfold apply_meta.
    destruct value as [|v [|v' rest]]; [done| |];
      cbn [String.eqb Ascii.eqb Bool.eqb andb]; by rewrite Hbad.
Qed.

Lemma apply_meta_edges_witness :
  apply_meta "a.md" (SingleLanguage.index, [], [])
             ("title", ["One"; "Two"])
  = Ok (SingleLanguage.index, [],
        [DWarn "a.md: unknown metadata 'title' of length 2"])
  /\ apply_meta "a.md" (SingleLanguage.index, [], []) ("label", ["home"])
     = Raise AssertionError.
Proof.
  destruct (apply_meta_edges "a.md" "title" ["One"; "Two"]
              SingleLanguage.index [] []) as [H1 _].
  destruct (apply_meta_edges "a.md" "label" ["home"]
              SingleLanguage.index [] []) as [_ H2].
  split; [apply H1; done | apply H2; reflexivity].
Defined.

(** X28. The two static paths handed to templates lead where they say:
    for a page with a normalised URL, [globalStaticRelpath] resolves,
    from the page, to /static, and [localStaticRelpath] to the page's
    local static URL when that is normalised. *)
Theorem static_relpaths_resolve (p : PageInfo) (U : Url) :
  url p = Ok U ->
  normalised (_path U) = true ->
  (exists r, globalStaticRelpath p = Ok r
             /\ url_resolve (_path U) r = "/static")
  /\ (normalised (_path (local_static p)) = true ->
      exists r, localStaticRelpath p = Ok r
                /\ url_resolve (_path U) r = _path (local_static p)).
Proof.
  intros Hurl HU. split.
  - destruct (relpath_resolves "/static" (_path U) eq_refl HU)
      as (r & Hr & Hres).
    exists r. split; [|done].
    unfold globalStaticRelpath, Url_mod. rewrite Hurl, res_bind_Ok.
    by destruct U.
  - intros Hls.
    destruct (relpath_resolves _ (_path U) Hls HU) as (r & Hr & Hres).
    exists r. split; [|done].
    unfold localStaticRelpath, localStaticUrl, Url_mod.
    rewrite Hurl, res_bind_Ok. by destruct U.
Qed.

Lemma static_relpaths_resolve_witness :
  globalStaticRelpath StaticRefs.intro = Ok "../static"
  /\ localStaticRelpath StaticRefs.intro = Ok "../static/guide"
  /\ exists r, globalStaticRelpath StaticRefs.intro = Ok r
               /\ url_resolve "/guide/intro.html" r = "/static".
Proof.
  split; [reflexivity|]. split; [reflexivity|].
  exact (proj1 (static_relpaths_resolve StaticRefs.intro
                  (UnsafeUrl "/guide/intro.html") eq_refl eq_refl)).
Defined.


